(** * A shallow embedding of [Vector<T>] and [RawMemory<T>] (advanced-vector/vector.h)

    The owned block of a [RawMemory<T>] is a list of slots, one per element
    slot of the allocation: [Raw] is uninitialised storage, [Live a] holds a
    constructed object of value [a].  The capacity of the block is the
    length of the list.  [size_t] is modelled by [nat]: the counters of a
    vector count objects that live in memory, so [size_ * 2] never wraps in
    any run that can happen.

    A call of a member function runs in a small state monad over [Mach]: the
    two members of the vector ([data_], [size_]), the local [new_data]
    buffer of the growth paths, and a trace of the element operations
    performed (constructions, copies, moves, assignments, destructions).
    A run either returns normally ([Ok]), propagates a C++ exception
    ([Exn], with the state the members were left in), or hits undefined
    behaviour ([UB]: a failed [assert], reading a dead slot, an invalid
    iterator range).

    The behaviour of the element type [T] is a parameter ([ElemType]): its
    two type traits used by [MoveOrCopy], which values make a copy or a
    move throw, and the value left behind in a moved-from object. *)

From Stdlib Require Import Arith Lia.
From stdpp Require Import base list.

Section VectorModel.

Context {A : Type}.

(** ** Data *)

Inductive slot : Type :=
| Raw
| Live (a : A).

(** [RawMemory<T>]: [buffer_] with [capacity_ = length]. *)
Local Abbreviation buffer := (list slot).

(** [Vector<T>]: the members [data_] and [size_]. *)
Record Vector : Type := mkVector {
  data_ : buffer;
  size_ : nat
}.

Definition Size (v : Vector) : nat := size_ v.
Definition Capacity (v : Vector) : nat := length (data_ v).

(** The element type [T] as far as the vector can observe it. *)
Record ElemType : Type := {
  nothrow_move : bool;            (* std::is_nothrow_move_constructible_v<T> *)
  copy_constructible : bool;      (* std::is_copy_constructible_v<T> *)
  move_throws : A -> bool;        (* moving this value throws *)
  copy_throws : A -> bool;        (* copying this value throws *)
  moved_from : A -> A;            (* state left in the source of a move *)
  default_value : A;              (* T(): value-initialisation *)
  default_throws : nat -> bool;   (* the default constructor T() throws at the k-th
                                     construction of one uninitialized_*_construct_n *)
  default_init : A                (* the value default-initialisation leaves: that of T()
                                     for a class type; for a type such as int, whose
                                     default-initialisation leaves the value
                                     indeterminate, an arbitrary value *)
}.

(** Element operations, in the order the program performs them. *)
Inductive event : Type :=
| EvConstruct      (* T(args...) or T() *)
| EvCopy           (* copy construction *)
| EvMove           (* move construction *)
| EvCopyAssign     (* copy assignment *)
| EvMoveAssign     (* move assignment *)
| EvDestroy.       (* destructor *)

(** State of a running member function. *)
Record Mach : Type := mkMach {
  m_data : buffer;
  m_size : nat;
  m_new : buffer;
  m_trace : list event
}.

Inductive res (X : Type) : Type :=
| Ok (x : X) (m : Mach)
| Exn (m : Mach)
| UB.

Definition M (X : Type) : Type := Mach -> res X.

Definition vec_of (m : Mach) : Vector := mkVector (m_data m) (m_size m).

Definition start (v : Vector) : Mach := mkMach (data_ v) (size_ v) [] [].

(** ** The monad *)

Definition ret {X} (x : X) : M X := fun m => Ok X x m.

Definition bind {X Y} (p : M X) (f : X -> M Y) : M Y :=
  fun m => match p m with
           | Ok _ x m' => f x m'
           | Exn _ m' => Exn Y m'
           | UB _ => UB Y
           end.

Definition throw {X} : M X := fun m => Exn X m.
Definition undefined {X} : M X := fun _ => UB X.

End VectorModel.

(** [RawMemory<T>]: [buffer_] with [capacity_ = length]. *)
Abbreviation buffer := (list slot).

Arguments Raw {A}.
Arguments Live {A} a.
Arguments Ok {A X} x m.
Arguments Exn {A X} m.
Arguments UB {A X}.

(** The program is written with stdpp's monad notations. *)
Global Instance M_ret {A} : MRet (@M A) := fun X x => ret x.
Global Instance M_bind {A} : MBind (@M A) := fun X Y f p => bind p f.

Section Operations.

Context {A : Type}.
Context (et : ElemType (A := A)).

Implicit Types (m : Mach (A := A)) (b : list (@slot A)).

(** ** Access to the members *)

Inductive bufref : Type := BData | BNew.

(** A buffer read from: one of the machine's, or the block of another,
    distinct vector (read only). *)
Inductive srcref : Type :=
| SBuf (r : bufref)
| SExt (b : list (@slot A)).

Definition get_buf (r : bufref) m : buffer :=
  match r with BData => m_data m | BNew => m_new m end.

Definition put_buf (r : bufref) b m : Mach :=
  match r with
  | BData => mkMach b (m_size m) (m_new m) (m_trace m)
  | BNew => mkMach (m_data m) (m_size m) b (m_trace m)
  end.

Definition src_buf (s : srcref) m : buffer :=
  match s with SBuf r => get_buf r m | SExt b => b end.

Definition get_size : M nat := fun m => Ok (m_size m) m.
Definition get_capacity : M nat := fun m => Ok (length (m_data m)) m.

Definition set_size (n : nat) : M unit :=
  fun m => Ok tt (mkMach (m_data m) n (m_new m) (m_trace m)).

Definition emit (e : event) : M unit :=
  fun m => Ok tt (mkMach (m_data m) (m_size m) (m_new m) (m_trace m ++ [e])).

(** [RawMemory<T> new_data(n)]: a fresh block of [n] raw slots. *)
Definition alloc (n : nat) : M unit :=
  fun m => Ok tt (put_buf BNew (replicate n Raw) m).

(** [data_.Swap(new_data)] *)
Definition swap_data_new : M unit :=
  fun m => Ok tt (mkMach (m_new m) (m_size m) (m_data m) (m_trace m)).

(** Reading a live element; any other access is undefined. *)
Definition read (s : srcref) (i : nat) : M A :=
  fun m => match src_buf s m !! i with
           | Some (Live a) => Ok a m
           | _ => UB
           end.

(** Overwriting the state of an object in place (no event). *)
Definition set_slot (r : bufref) (i : nat) (x : slot) : M unit :=
  fun m => if i <? length (get_buf r m)
           then Ok tt (put_buf r (<[i := x]> (get_buf r m)) m)
           else UB.

(** Placement new of value [a] in slot [i]. *)
Definition construct (r : bufref) (i : nat) (a : A) (e : event) : M unit :=
  set_slot r i (Live a) ;; emit e.

(** [std::destroy_at]: only a live object can be destroyed. *)
Definition destroy (r : bufref) (i : nat) : M unit :=
  fun m => match get_buf r m !! i with
           | Some (Live _) => (set_slot r i Raw ;; emit EvDestroy) m
           | _ => UB
           end.

(** Assignment to a live object. *)
Definition assign (r : bufref) (i : nat) (a : A) (e : event) : M unit :=
  fun m => match get_buf r m !! i with
           | Some (Live _) => (set_slot r i (Live a) ;; emit e) m
           | _ => UB
           end.

(** Element operations on slots. *)
Definition copy_construct (s : srcref) (i : nat) (r : bufref) (j : nat) : M unit :=
  a ← read s i;
  if copy_throws et a then throw else construct r j a EvCopy.

Definition move_construct (rs : bufref) (i : nat) (r : bufref) (j : nat) : M unit :=
  a ← read (SBuf rs) i;
  if move_throws et a then throw
  else construct r j a EvMove ;; set_slot rs i (Live (moved_from et a)).

Definition copy_assign (s : srcref) (i : nat) (r : bufref) (j : nat) : M unit :=
  a ← read s i;
  if copy_throws et a then throw else assign r j a EvCopyAssign.

Definition move_assign (rs : bufref) (i : nat) (r : bufref) (j : nat) : M unit :=
  a ← read (SBuf rs) i;
  if move_throws et a then throw
  else assign r j a EvMoveAssign ;; set_slot rs i (Live (moved_from et a)).

(** The arguments [args...] of a constructor call [T(std::forward<Args>(args)...)]. *)
Inductive ctor_args : Type :=
| Args (o : option A)   (* arguments that are not elements of this vector: the value
                           the constructor builds from them, [None] when it throws *)
| CopyOf (j : nat)      (* one [const T&] bound to the element [data_[j]] *)
| MoveOf (j : nat).     (* one [T&&] bound to the element [data_[j]] *)

(** The constructor call, evaluated at the point where the program makes
    it: a reference to an element reads the element as it is then, and a
    move leaves it moved-from. *)
Definition make_arg (arg : ctor_args) : M A :=
  match arg with
  | Args None => throw
  | Args (Some a) => ret a
  | CopyOf j =>
      a ← read (SBuf BData) j;
      if copy_throws et a then throw else ret a
  | MoveOf j =>
      a ← read (SBuf BData) j;
      if move_throws et a then throw
      else set_slot BData j (Live (moved_from et a));; ret a
  end.

(** [new (buf + i) T(std::forward<Args>(args)...)] *)
Definition construct_arg (r : bufref) (i : nat) (arg : ctor_args) : M unit :=
  a ← make_arg arg;
  construct r i a EvConstruct.

(** The outcome of copying / moving a given value into a new object. *)
Definition copy_arg (a : A) : option A := if copy_throws et a then None else Some a.
Definition move_arg (a : A) : option A := if move_throws et a then None else Some a.

(** The object a reference parameter ([const T&] or [T&&]) is bound to. *)
Inductive objref : Type :=
| Ext (a : A)      (* an object that is not an element of this vector, of value [a] *)
| Elem (j : nat).  (* the element [data_[j]] *)

(** The constructor call [T(value)] for a [const T&] and for a [T&&]. *)
Definition copy_of (value : objref) : ctor_args :=
  match value with Ext a => Args (copy_arg a) | Elem j => CopyOf j end.
Definition move_of (value : objref) : ctor_args :=
  match value with Ext a => Args (move_arg a) | Elem j => MoveOf j end.

(** A handler run when [p] throws; the exception is then rethrown. *)
Definition on_exn {X} (p : M X) (h : M unit) : M X :=
  fun m => match p m with
           | Exn m' => match h m' with
                       | Ok _ m'' => Exn m''
                       | Exn m'' => Exn m''
                       | UB => UB
                       end
           | r => r
           end.

(** ** The algorithms of <memory> and <algorithm> used by the vector *)

(** [std::destroy_n(buf + i, n)] *)
Fixpoint destroy_n (r : bufref) (i n : nat) : M unit :=
  match n with
  | O => ret tt
  | S n' => destroy r i ;; destroy_n r (S i) n'
  end.

(** [std::uninitialized_copy_n(src + i, n, dst + j)]: when a copy throws,
    the [k] objects already constructed are destroyed and the exception is
    rethrown. *)
Fixpoint ucopy_go (s : srcref) (i : nat) (r : bufref) (j k n : nat) : M unit :=
  match n with
  | O => ret tt
  | S n' => on_exn (copy_construct s (i + k) r (j + k)) (destroy_n r j k) ;;
            ucopy_go s i r j (S k) n'
  end.

Definition uninitialized_copy_n (s : srcref) (i n : nat) (r : bufref) (j : nat) : M unit :=
  ucopy_go s i r j 0 n.

(** [std::uninitialized_move_n(src + i, n, dst + j)] *)
Fixpoint umove_go (rs : bufref) (i : nat) (r : bufref) (j k n : nat) : M unit :=
  match n with
  | O => ret tt
  | S n' => on_exn (move_construct rs (i + k) r (j + k)) (destroy_n r j k) ;;
            umove_go rs i r j (S k) n'
  end.

Definition uninitialized_move_n (rs : bufref) (i n : nat) (r : bufref) (j : nat) : M unit :=
  umove_go rs i r j 0 n.

(** [n] default constructions from [buf + i], the object built being [a]:
    when one throws, the [k] objects already constructed are destroyed and
    the exception is rethrown. *)
Fixpoint uconstruct_go (a : A) (r : bufref) (i k n : nat) : M unit :=
  match n with
  | O => ret tt
  | S n' => on_exn (if default_throws et k then throw else construct r (i + k) a EvConstruct)
                   (destroy_n r i k) ;;
            uconstruct_go a r i (S k) n'
  end.

(** [std::uninitialized_value_construct_n(buf + i, n)]: [T()] in each slot. *)
Definition uninitialized_value_construct_n (r : bufref) (i n : nat) : M unit :=
  uconstruct_go (default_value et) r i 0 n.

(** [std::uninitialized_default_construct_n(buf + i, n)]: default-initialisation. *)
Definition uninitialized_default_construct_n (r : bufref) (i n : nat) : M unit :=
  uconstruct_go (default_init et) r i 0 n.

(** [std::copy_n(src + i, n, dst + j)]: copy assignment, front to back. *)
Fixpoint copy_n (s : srcref) (i n : nat) (r : bufref) (j : nat) : M unit :=
  match n with
  | O => ret tt
  | S n' => copy_assign s i r j ;; copy_n s (S i) n' r (S j)
  end.

(** [std::move(buf + i, buf + i + n, buf + j)]: move assignment, front to back. *)
Fixpoint move_fwd (r : bufref) (i n j : nat) : M unit :=
  match n with
  | O => ret tt
  | S n' => move_assign r i r j ;; move_fwd r (S i) n' (S j)
  end.

(** [std::move_backward(buf + i, buf + i + n, buf + e)]: move assignment,
    back to front; [e] is the end of the destination range. *)
Fixpoint move_bwd (r : bufref) (i n e : nat) : M unit :=
  match n with
  | O => ret tt
  | S n' => move_assign r (i + n') r (e - 1) ;; move_bwd r i n' (e - 1)
  end.

End Operations.

Arguments Args {A} o.
Arguments CopyOf {A} j.
Arguments MoveOf {A} j.
Arguments Ext {A} a.
Arguments Elem {A} j.

Section Members.

Context {A : Type}.
Context (et : ElemType (A := A)).

Local Abbreviation M := (@M A).

(** ** The member functions of [Vector<T>] *)

(** [MoveOrCopy(data_ + i, n, new_data + j)] *)
Definition MoveOrCopy (i n j : nat) : M unit :=
  if nothrow_move et || negb (copy_constructible et)
  then uninitialized_move_n et BData i n BNew j
  else uninitialized_copy_n et (SBuf BData) i n BNew j.

(** [size_ == 0 ? 1 : size_ * 2] *)
Definition grown (size : nat) : nat := if size =? 0 then 1 else size * 2.

Definition Reserve (new_capacity : nat) : M unit :=
  cap ← get_capacity;
  if new_capacity <=? cap then ret tt
  else
    size ← get_size;
    alloc new_capacity;;
    MoveOrCopy 0 size 0;;
    destroy_n BData 0 size;;
    swap_data_new.

Definition Resize (new_size : nat) : M unit :=
  size ← get_size;
  if size <? new_size then
    cap ← get_capacity;
    (if cap <? new_size then Reserve new_size else ret tt);;
    uninitialized_default_construct_n et BData size (new_size - size);;
    set_size new_size
  else
    destroy_n BData new_size (size - new_size);;
    set_size new_size.

(** [EmplaceBack(args...)]; returns the index of the new element. *)
Definition EmplaceBack (arg : @ctor_args A) : M nat :=
  size ← get_size;
  cap ← get_capacity;
  if size =? cap then
    alloc (grown size);;
    construct_arg et BNew size arg;;
    MoveOrCopy 0 size 0;;
    destroy_n BData 0 size;;
    swap_data_new;;
    set_size (S size);;
    ret size
  else
    construct_arg et BData size arg;;
    set_size (S size);;
    ret size.

(** [PushBack(const T&)] and [PushBack(T&&)] *)
Definition PushBack (value : @objref A) : M nat := EmplaceBack (copy_of et value).
Definition PushBackMove (value : @objref A) : M nat := EmplaceBack (move_of et value).

Definition PopBack : M unit :=
  size ← get_size;
  if size =? 0 then undefined
  else set_size (size - 1);; destroy BData (size - 1).

(** [Emplace(pos, args...)], the position given by its index [dist].
    A position outside [begin(), end()] is undefined.  In the branch below
    capacity, the temporary of [*it = T(args...)] is built after the
    elements have been shifted, then move-assigned and destroyed. *)
Definition Emplace (dist : nat) (arg : @ctor_args A) : M nat :=
  size ← get_size;
  if size <? dist then undefined
  else
    alloc (grown size);;
    cap ← get_capacity;
    if size =? cap then
      construct_arg et BNew dist arg;;
      MoveOrCopy 0 dist 0;;
      MoveOrCopy dist (size - dist) (dist + 1);;
      destroy_n BData 0 size;;
      swap_data_new;;
      set_size (S size);;
      ret dist
    else if dist =? size then
      construct_arg et BData size arg;;
      set_size (S size);;
      ret dist
    else
      move_construct et BData (size - 1) BData size;;
      move_bwd et BData dist (size - 1 - dist) size;;
      a ← make_arg et arg;
      emit EvConstruct;;
      (if move_throws et a then emit EvDestroy;; throw
       else assign BData dist a EvMoveAssign;; emit EvDestroy);;
      set_size (S size);;
      ret dist.

(** [Insert(pos, const T&)] and [Insert(pos, T&&)] *)
Definition Insert (dist : nat) (value : @objref A) : M nat := Emplace dist (copy_of et value).
Definition InsertMove (dist : nat) (value : @objref A) : M nat := Emplace dist (move_of et value).

(** [Erase(pos)]: [std::move(pos + 1, end(), pos)], then [PopBack()].
    A non-empty vector with [pos] not below [end()] gives an invalid range. *)
Definition Erase (p : nat) : M nat :=
  size ← get_size;
  if size =? 0 then ret p
  else if size <=? p then undefined
  else
    move_fwd et BData (S p) (size - S p) p;;
    PopBack;;
    ret p.

(** The right-hand side of a copy assignment: the vector itself
    ([v = v], the same object) or another vector. *)
Inductive source : Type :=
| SrcSelf
| SrcOther (w : @Vector A).

Definition src_size (s : source) : M nat :=
  match s with SrcSelf => get_size | SrcOther w => ret (size_ w) end.

Definition src_ref (s : source) : srcref :=
  match s with SrcSelf => SBuf BData | SrcOther w => SExt (data_ w) end.

(** [operator=(const Vector& other)].  In the first branch the temporary
    [Vector temp(other)] is built in [new_data]; [Swap(temp)] exchanges
    buffers and sizes, and [~Vector] of [temp] destroys the old elements. *)
Definition CopyAssign (s : source) : M unit :=
  osize ← src_size s;
  size ← get_size;
  cap ← get_capacity;
  (if cap <? osize then
     alloc osize;;
     uninitialized_copy_n et (src_ref s) 0 osize BNew 0;;
     swap_data_new;;
     set_size osize;;
     destroy_n BNew 0 size
   else
     copy_n et (src_ref s) 0 (Nat.min size osize) BData 0;;
     (if osize <? size then destroy_n BData osize (size - osize)
      else if size <? osize then
        uninitialized_copy_n et (src_ref s) size (osize - size) BData size
      else ret tt));;
  osize' ← src_size s;
  set_size osize'.

(** Running a member function on a vector. *)
Definition run {X} (p : M X) (v : @Vector A) : res X := p (start v).

(** The constructors, run on the members of the object being built. *)
Definition VectorSized (n : nat) : M unit :=
  (fun m => Ok tt (put_buf BData (replicate n Raw) m));;
  set_size n;;
  uninitialized_value_construct_n et BData 0 n.

Definition VectorCopy (other : @Vector A) : M unit :=
  (fun m => Ok tt (put_buf BData (replicate (size_ other) Raw) m));;
  set_size (size_ other);;
  uninitialized_copy_n et (SExt (data_ other)) 0 (size_ other) BData 0.

End Members.

(** [Vector()] *)
Definition empty_vector {A} : @Vector A := mkVector [] 0.

(** [Swap]: exchanges the members of two vectors; the move constructor
    and the move assignment are this swap (with an empty vector for the
    move constructor). *)
Definition Swap {A} (v w : @Vector A) : @Vector A * @Vector A := (w, v).

(** * Specification-level definitions *)

Section Specs.

Context {A : Type}.
Context (et : ElemType (A := A)).

Local Abbreviation M := (@M A).

Implicit Types (m : @Mach A) (r : bufref) (xs ys : list A).

Definition tr_add m (evs : list event) : Mach :=
  mkMach (m_data m) (m_size m) (m_new m) (m_trace m ++ evs).

(** A vector whose live elements are [xs], followed by [n] raw slots. *)
Definition mkV (xs : list A) (n : nat) : @Vector A :=
  mkVector (map Live xs ++ replicate n Raw) (length xs).

(** The value left in the last slot by [std::move(pos + 1, end(), pos)]. *)
Fixpoint residue (x : A) (ys : list A) : A :=
  match ys with
  | [] => x
  | y :: ys' => residue (moved_from et y) ys'
  end.

(** The value left at the insertion position by [std::move_backward]. *)
Definition front_res (z : A) (seg : list A) : A :=
  match seg with
  | [] => z
  | s0 :: _ => moved_from et s0
  end.

(** The branch taken by [MoveOrCopy]: move, or copy. *)
Definition moves : bool := nothrow_move et || negb (copy_constructible et).

Definition reloc_event : event := if moves then EvMove else EvCopy.

(** Whether relocating [a] by the chosen operation throws. *)
Definition reloc_throws (a : A) : bool :=
  if moves then move_throws et a else copy_throws et a.

(** The state left in the old buffer by the relocation. *)
Definition relocated xs : list A := if moves then map (moved_from et) xs else xs.

(** The sequence after inserting [a] at [p], or removing position [p]. *)
Definition ins_at (p : nat) (a : A) xs : list A := take p xs ++ a :: drop p xs.
Definition del_at (p : nat) xs : list A := take p xs ++ drop (S p) xs.

(** Weakest-precondition style reading of one run. *)
Definition wp {X} (p : M X) (Q : X -> @Mach A -> Prop) (E : @Mach A -> Prop) m : Prop :=
  match p m with
  | Ok x m' => Q x m'
  | Exn m' => E m'
  | UB => True
  end.

(** The lengths of the two blocks (the capacities of [data_] and [new_data]). *)
Definition lens m : nat * nat := (length (m_data m), length (m_new m)).

(** A step that allocates nothing and swaps nothing. *)
Definition frame {X} (p : M X) : Prop :=
  forall m, wp p (fun _ m' => lens m' = lens m) (fun m' => lens m' = lens m) m.

(** A step that leaves the members [data_] and [size_] as they are. *)
Definition keeps_vec {X} (p : M X) : Prop :=
  forall m, wp p (fun _ m' => vec_of m' = vec_of m) (fun m' => vec_of m' = vec_of m) m.

(** A step that cannot throw. *)
Definition nothrow {X} (p : M X) : Prop :=
  forall m, match p m with Exn _ => False | _ => True end.

(** The capacity a run starts from is never lost. *)
Definition cap_at_least (c : nat) m : Prop := c <= length (m_data m).

(** The element operations an [Insert] or [Erase] may run do not throw. *)
Definition quiet (x : A) : Prop :=
  copy_throws et x = false /\ move_throws et x = false /\ reloc_throws x = false.

(** [PushBack] of each value of [ys] in turn, while no call throws. *)
Fixpoint pushes ys (v : @Vector A) : option (@Vector A) :=
  match ys with
  | [] => Some v
  | y :: ys' =>
      match run (PushBack et (Ext y)) v with
      | Ok _ m => pushes ys' (vec_of m)
      | _ => None
      end
  end.

(** Constructor arguments that do not move from an element of the vector. *)
Definition leaves_elems (arg : @ctor_args A) : bool :=
  match arg with MoveOf _ => false | _ => true end.

(** [c] is the least power of two holding [n] elements (and 0 for none). *)
Definition pow_fit (n c : nat) : Prop :=
  (n = 0 /\ c = 0) \/ exists j, c = 2 ^ j /\ n <= 2 ^ j < 2 * n.

End Specs.

(** ** The representation invariant and example element types *)

Definition is_live {A} (x : @slot A) : bool := match x with Live _ => true | Raw => false end.

(** [size_ <= capacity], slots [0, size_) hold objects, the rest is raw. *)
Definition valid {A} (v : @Vector A) : bool :=
  (size_ v <=? length (data_ v))
  && forallb is_live (take (size_ v) (data_ v))
  && forallb (fun x => negb (is_live x)) (drop (size_ v) (data_ v)).

(** An element type ([int]-like values) whose copy constructor throws on the
    value 99; moves never throw and leave 0 behind. *)
Definition et_ex : @ElemType nat := {|
  nothrow_move := true;
  copy_constructible := true;
  move_throws := fun _ => false;
  copy_throws := fun a => a =? 99;
  moved_from := fun _ => 0;
  default_value := 0;
  default_throws := fun _ => false;
  default_init := 0
|}.

(** The capacity of [v] is kept by a run of [p] from [v]. *)
Definition cap_kept {A X} (p : @M A X) (v : @Vector A) : Prop :=
  match run p v with
  | Ok _ m | Exn m => Capacity v <= Capacity (vec_of m)
  | UB => True
  end.

(** A move-only element type: its move constructor is not [noexcept] (but
    does not throw on these values) and it has no copy constructor. *)
Definition et_move_only : @ElemType nat := {|
  nothrow_move := false;
  copy_constructible := false;
  move_throws := fun _ => false;
  copy_throws := fun _ => true;
  moved_from := fun _ => 0;
  default_value := 0;
  default_throws := fun _ => false;
  default_init := 0
|}.

(** An element type whose default constructor throws at its second call. *)
Definition et_ctor_throws : @ElemType nat := {|
  nothrow_move := true;
  copy_constructible := true;
  move_throws := fun _ => false;
  copy_throws := fun _ => false;
  moved_from := fun _ => 0;
  default_value := 0;
  default_throws := fun k => k =? 1;
  default_init := 0
|}.

(** ** Element access and destruction *)

Section Access.

Context {A : Type}.

Local Abbreviation M := (@M A).

(** [operator[](index)] (and its [const] overload, which calls it):
    [assert(index < size_)], then the element [data_[index]]. *)
Definition Subscript (index : nat) : M A :=
  size ← get_size;
  if index <? size then read (SBuf BData) index else undefined.

(** [~Vector()]: [std::destroy_n(data_.GetAddress(), size_)]; the block
    itself is then released by [~RawMemory]. *)
Definition Destructor : M unit :=
  size ← get_size;
  destroy_n BData 0 size.

End Access.

(** What a caller observes of a run: the returned value ([None] for an
    exception), the members of the vector, and the element operations;
    [None] for undefined behaviour. *)
Definition observe {A X} (r : @res A X) : option (option X * @Vector A * list event) :=
  match r with
  | Ok x m => Some (Some x, vec_of m, m_trace m)
  | Exn m => Some (None, vec_of m, m_trace m)
  | UB => None
  end.

(** * Reasoning about runs *)

Section Lemmas.

Context {A : Type}.
Context (et : ElemType (A := A)).

Implicit Types (m : @Mach A) (r : bufref) (b : list (@slot A)).

Lemma bind_run {X Y} (p : M X) (f : X -> M Y) m :
  (p ≫= f) m = match p m with
               | Ok x m' => f x m'
               | Exn m' => Exn m'
               | UB => UB
               end.
Proof. reflexivity. Qed.

Lemma get_put_same r b m : get_buf r (put_buf r b m) = b.
Proof. by destruct r. Qed.

Lemma get_put_other r r' b m : r <> r' -> get_buf r' (put_buf r b m) = get_buf r' m.
Proof. destruct r, r'; simpl; congruence. Qed.

Lemma put_put r b b' m : put_buf r b' (put_buf r b m) = put_buf r b' m.
Proof. by destruct r. Qed.

Lemma get_tr r m evs : get_buf r (tr_add m evs) = get_buf r m.
Proof. by destruct r. Qed.

Lemma put_tr r b m evs : put_buf r b (tr_add m evs) = tr_add (put_buf r b m) evs.
Proof. by destruct r. Qed.

Lemma tr_tr m e1 e2 : tr_add (tr_add m e1) e2 = tr_add m (e1 ++ e2).
Proof. unfold tr_add; simpl. by rewrite app_assoc. Qed.

Lemma tr_nil m : tr_add m [] = m.
Proof. destruct m; unfold tr_add; simpl. by rewrite app_nil_r. Qed.

Lemma put_get r m : put_buf r (get_buf r m) m = m.
Proof. destruct r, m; reflexivity. Qed.

Lemma size_put r b m : m_size (put_buf r b m) = m_size m.
Proof. by destruct r. Qed.

Lemma size_tr m evs : m_size (tr_add m evs) = m_size m.
Proof. reflexivity. Qed.

Lemma src_put s r b m :
  (forall r', s = SBuf r' -> r' <> r) -> src_buf s (put_buf r b m) = src_buf s m.
Proof.
  intros H. destruct s as [r'|]; simpl; [|done].
  apply get_put_other. intros ->. by apply (H r').
Qed.

Lemma src_tr s m evs : src_buf s (tr_add m evs) = src_buf s m.
Proof. destruct s; simpl; [apply get_tr | done]. Qed.

Lemma emit_run e m : emit e m = Ok tt (tr_add m [e]).
Proof. reflexivity. Qed.

Lemma set_slot_run r i x m :
  i < length (get_buf r m) ->
  set_slot r i x m = Ok tt (put_buf r (<[i := x]> (get_buf r m)) m).
Proof. intros H. unfold set_slot. by rewrite (proj2 (Nat.ltb_lt _ _) H). Qed.

Lemma insert_mid {T} (pre post : list T) x y :
  <[length pre := y]> (pre ++ x :: post) = pre ++ y :: post.
Proof.
  rewrite insert_app_r_alt by lia. by rewrite Nat.sub_diag.
Qed.

Lemma lookup_mid {T} (pre post : list T) x :
  (pre ++ x :: post) !! length pre = Some x.
Proof. by apply list_lookup_middle. Qed.

Lemma length_mid {T} (pre post : list T) x :
  length pre < length (pre ++ x :: post).
Proof. rewrite length_app; simpl; lia. Qed.

(** Element-level steps on a slot in the middle of a buffer. *)
Lemma construct_mid r pre x post m a e :
  get_buf r m = pre ++ x :: post ->
  construct r (length pre) a e m
  = Ok tt (tr_add (put_buf r (pre ++ Live a :: post) m) [e]).
Proof.
  intros H. unfold construct. rewrite bind_run, set_slot_run
    by (rewrite H; apply length_mid).
  by rewrite H, insert_mid.
Qed.

Lemma destroy_mid r pre a post m :
  get_buf r m = pre ++ Live a :: post ->
  destroy r (length pre) m = Ok tt (tr_add (put_buf r (pre ++ Raw :: post) m) [EvDestroy]).
Proof.
  intros H. unfold destroy. rewrite H, lookup_mid, bind_run, set_slot_run
    by (rewrite H; apply length_mid).
  by rewrite H, insert_mid.
Qed.

Lemma assign_mid r pre a post m a' e :
  get_buf r m = pre ++ Live a :: post ->
  assign r (length pre) a' e m = Ok tt (tr_add (put_buf r (pre ++ Live a' :: post) m) [e]).
Proof.
  intros H. unfold assign. rewrite H, lookup_mid, bind_run, set_slot_run
    by (rewrite H; apply length_mid).
  by rewrite H, insert_mid.
Qed.

Lemma read_mid s pre a post m :
  src_buf s m = pre ++ Live a :: post -> read s (length pre) m = Ok a m.
Proof. intros H. unfold read. by rewrite H, lookup_mid. Qed.

End Lemmas.

Create Rewrite HintDb mach.
#[global] Hint Rewrite @get_put_same @put_put @get_tr @put_tr @tr_tr @tr_nil
  @size_put @size_tr @src_tr : mach.

(** ** The loops, on runs where no element operation throws *)

Section Loops.

Context {A : Type}.
Context (et : ElemType (A := A)).

Local Abbreviation residue := (residue et).
Local Abbreviation front_res := (front_res et).

Implicit Types (m : @Mach A) (r : bufref).

Lemma destroy_n_run r pre xs post m :
  get_buf r m = pre ++ map Live xs ++ post ->
  destroy_n r (length pre) (length xs) m =
  Ok tt (tr_add (put_buf r (pre ++ replicate (length xs) Raw ++ post) m)
                (replicate (length xs) EvDestroy)).
Proof.
  induction xs as [|x xs IH] in pre, m |- *; intros H; cbn [destroy_n length map] in *.
  - simpl in *. rewrite tr_nil, <- H, put_get. reflexivity.
  - rewrite bind_run, (destroy_mid r pre x (map Live xs ++ post) m H).
    replace (S (length pre)) with (length (pre ++ [Raw])) by (rewrite length_app; simpl; lia).
    rewrite IH by (autorewrite with mach; by rewrite <- app_assoc).
    autorewrite with mach. by rewrite <- !app_assoc.
Qed.

Lemma ucopy_go_run s i r j k xs spre spost pre D post m :
  (forall r', s = SBuf r' -> r' <> r) ->
  src_buf s m = spre ++ map Live xs ++ spost -> length spre = i + k ->
  get_buf r m = pre ++ D ++ post -> length pre = j + k -> length D = length xs ->
  Forall (fun a => copy_throws et a = false) xs ->
  ucopy_go et s i r j k (length xs) m =
  Ok tt (tr_add (put_buf r (pre ++ map Live xs ++ post) m) (replicate (length xs) EvCopy)).
Proof.
  intros Hal.
  induction xs as [|x xs IH] in k, spre, pre, D, m |- *;
    intros Hs Hsl Hd Hdl HD Hth; cbn [ucopy_go length map] in *.
  - destruct D; [|discriminate]. simpl in *.
    rewrite tr_nil, <- Hd, put_get. reflexivity.
  - destruct D as [|d D]; [discriminate|]. inversion Hth as [|? ? Hx Hth']; subst.
    rewrite bind_run. unfold on_exn, copy_construct.
    rewrite bind_run. replace (i + k) with (length spre) by lia.
    rewrite (read_mid s spre x (map Live xs ++ spost)) by exact Hs.
    rewrite Hx. replace (j + k) with (length pre) by lia.
    rewrite (construct_mid r pre d (D ++ post)) by exact Hd.
    rewrite (IH (S k) (spre ++ [Live x]) (pre ++ [Live x]) D).
    + autorewrite with mach. by rewrite <- !app_assoc.
    + rewrite src_tr, src_put by exact Hal. rewrite Hs. by rewrite <- app_assoc.
    + rewrite length_app; simpl; lia.
    + autorewrite with mach. by rewrite <- app_assoc.
    + rewrite length_app; simpl; lia.
    + simpl in HD; lia.
    + exact Hth'.
Qed.

(** The moves of [MoveOrCopy], from [data_] into [new_data]. *)
Lemma umove_go_run i j k xs spre spost pre D post m :
  m_data m = spre ++ map Live xs ++ spost -> length spre = i + k ->
  m_new m = pre ++ D ++ post -> length pre = j + k -> length D = length xs ->
  Forall (fun a => move_throws et a = false) xs ->
  umove_go et BData i BNew j k (length xs) m =
  Ok tt (mkMach (spre ++ map Live (map (moved_from et) xs) ++ spost) (m_size m)
                (pre ++ map Live xs ++ post) (m_trace m ++ replicate (length xs) EvMove)).
Proof.
  induction xs as [|x xs IH] in k, spre, pre, D, m |- *;
    intros Hs Hsl Hd Hdl HD Hth; cbn [umove_go length map] in *.
  - destruct D; [|discriminate]. simpl in Hd. destruct m; simpl in *; subst.
    by rewrite !app_nil_r.
  - destruct D as [|d D]; [discriminate|]. inversion Hth as [|? ? Hx Hth']; subst.
    rewrite bind_run. unfold on_exn, move_construct.
    rewrite bind_run. replace (i + k) with (length spre) by lia.
    rewrite (read_mid (SBuf BData) spre x (map Live xs ++ spost)) by exact Hs.
    rewrite Hx. replace (j + k) with (length pre) by lia.
    rewrite bind_run, (construct_mid BNew pre d (D ++ post)) by exact Hd.
    rewrite set_slot_run by (simpl; rewrite Hs; apply length_mid).
    simpl. rewrite Hs, <- app_comm_cons, insert_mid.
    rewrite (IH (S k) (spre ++ [Live (moved_from et x)]) (pre ++ [Live x]) D);
      simpl; try (rewrite ?length_app; simpl; lia); try done.
    all: try (by rewrite <- ?app_assoc); simpl in HD; lia.
Qed.

Lemma uconstruct_go_run a r i k pre D post m :
  (forall k', default_throws et k' = false) ->
  get_buf r m = pre ++ D ++ post -> length pre = i + k ->
  uconstruct_go et a r i k (length D) m =
  Ok tt (tr_add (put_buf r (pre ++ replicate (length D) (Live a) ++ post) m)
                (replicate (length D) EvConstruct)).
Proof.
  intros Hd. induction D as [|d D IH] in pre, k, m |- *; intros H Hl;
    cbn [uconstruct_go length] in *.
  - simpl in *. rewrite tr_nil, <- H, put_get. reflexivity.
  - rewrite bind_run, Hd. unfold on_exn. replace (i + k) with (length pre) by lia.
    rewrite (construct_mid r pre d (D ++ post)) by exact H.
    rewrite (IH (S k) (pre ++ [Live a]))
      by (autorewrite with mach; rewrite ?length_app; simpl; try lia; by rewrite <- app_assoc).
    autorewrite with mach. by rewrite <- !app_assoc.
Qed.

Lemma copy_n_run s r xs ys spre spost pre post m :
  (forall r', s = SBuf r' -> r' <> r) ->
  src_buf s m = spre ++ map Live xs ++ spost ->
  get_buf r m = pre ++ map Live ys ++ post -> length ys = length xs ->
  Forall (fun a => copy_throws et a = false) xs ->
  copy_n et s (length spre) (length xs) r (length pre) m =
  Ok tt (tr_add (put_buf r (pre ++ map Live xs ++ post) m)
                (replicate (length xs) EvCopyAssign)).
Proof.
  intros Hal.
  induction xs as [|x xs IH] in spre, pre, ys, m |- *;
    intros Hs Hd HD Hth; cbn [copy_n length map] in *.
  - destruct ys; [|discriminate]. simpl in *.
    rewrite tr_nil, <- Hd, put_get. reflexivity.
  - destruct ys as [|y ys]; [discriminate|]. inversion Hth as [|? ? Hx Hth']; subst.
    simpl in Hd, Hs. rewrite bind_run. unfold copy_assign.
    rewrite bind_run, (read_mid s spre x (map Live xs ++ spost)) by exact Hs.
    rewrite Hx, (assign_mid r pre y (map Live ys ++ post)) by exact Hd.
    replace (S (length spre)) with (length (spre ++ [Live x]))
      by (rewrite length_app; simpl; lia).
    replace (S (length pre)) with (length (pre ++ [Live x]))
      by (rewrite length_app; simpl; lia).
    rewrite (IH ys (spre ++ [Live x]) (pre ++ [Live x])).
    + autorewrite with mach. by rewrite <- !app_assoc.
    + rewrite src_tr, src_put by exact Hal. rewrite Hs. by rewrite <- app_assoc.
    + autorewrite with mach. by rewrite <- app_assoc.
    + simpl in HD; lia.
    + exact Hth'.
Qed.

(** [std::copy_n] of a range onto itself leaves the members as they were,
    also when a copy throws part way. *)
Lemma copy_n_self pre xs post m :
  m_data m = pre ++ map Live xs ++ post ->
  match copy_n et (SBuf BData) (length pre) (length xs) BData (length pre) m with
  | Ok _ m' | Exn m' => m_data m' = m_data m /\ m_size m' = m_size m
  | UB => False
  end.
Proof.
  induction xs as [|x xs IH] in pre, m |- *; intros Hd; cbn [copy_n length map] in *.
  - simpl. auto.
  - simpl in Hd. rewrite bind_run. unfold copy_assign.
    rewrite bind_run, (read_mid (SBuf BData) pre x (map Live xs ++ post)) by exact Hd.
    destruct (copy_throws et x); [simpl; auto|].
    rewrite (assign_mid BData pre x (map Live xs ++ post)) by exact Hd.
    replace (S (length pre)) with (length (pre ++ [Live x]))
      by (rewrite length_app; simpl; lia).
    specialize (IH (pre ++ [Live x])
                  (tr_add (put_buf BData (pre ++ Live x :: map Live xs ++ post) m) [EvCopyAssign])).
    destruct (copy_n _ _ _ _ _ _ _) as [? m'|m'|].
    + destruct IH as [H1 H2]; [simpl; by rewrite <- app_assoc|].
      rewrite H1, H2, Hd. done.
    + destruct IH as [H1 H2]; [simpl; by rewrite <- app_assoc|].
      rewrite H1, H2, Hd. done.
    + apply IH. simpl. by rewrite <- app_assoc.
Qed.

Lemma move_fwd_run r pre x ys post m :
  get_buf r m = pre ++ Live x :: map Live ys ++ post ->
  Forall (fun a => move_throws et a = false) ys ->
  move_fwd et r (S (length pre)) (length ys) (length pre) m =
  Ok tt (tr_add (put_buf r (pre ++ map Live ys ++ Live (residue x ys) :: post) m)
                (replicate (length ys) EvMoveAssign)).
Proof.
  induction ys as [|y ys IH] in pre, x, m |- *; intros Hd Hth; cbn [move_fwd length map residue] in *.
  - simpl in *. rewrite tr_nil, <- Hd, put_get. reflexivity.
  - inversion Hth as [|? ? Hy Hth']; subst. rewrite bind_run. unfold move_assign.
    replace (S (length pre)) with (length (pre ++ [Live x]))
      by (rewrite length_app; simpl; lia).
    rewrite bind_run, (read_mid (SBuf r) (pre ++ [Live x]) y (map Live ys ++ post))
      by (simpl; rewrite Hd; by rewrite <- app_assoc).
    rewrite Hy, bind_run, (assign_mid r pre x (Live y :: map Live ys ++ post)) by exact Hd.
    rewrite set_slot_run
      by (autorewrite with mach; rewrite !length_app; simpl; lia).
    autorewrite with mach.
    replace (pre ++ Live y :: Live y :: map Live ys ++ post)
      with ((pre ++ [Live y]) ++ Live y :: map Live ys ++ post)
      by (by rewrite <- app_assoc).
    replace (length (pre ++ [Live x])) with (length (pre ++ [Live y]))
      by (rewrite !length_app; done).
    rewrite insert_mid.
    rewrite (IH (pre ++ [Live y]) (moved_from et y)) by (autorewrite with mach; done || exact Hth').
    autorewrite with mach. by rewrite <- !app_assoc.
Qed.

Lemma front_res_snoc z seg x :
  front_res z (seg ++ [x]) = front_res (moved_from et x) seg.
Proof. by destruct seg. Qed.

Lemma move_bwd_run r pre seg z post m :
  get_buf r m = pre ++ map Live seg ++ Live z :: post ->
  Forall (fun a => move_throws et a = false) seg ->
  move_bwd et r (length pre) (length seg) (length pre + length seg + 1) m =
  Ok tt (tr_add (put_buf r (pre ++ Live (front_res z seg) :: map Live seg ++ post) m)
                (replicate (length seg) EvMoveAssign)).
Proof.
  induction seg as [|x seg IH] using rev_ind in z, post, m |- *; intros Hd Hth.
  - simpl in *. rewrite tr_nil, <- Hd, put_get. reflexivity.
  - apply Forall_app in Hth as [Hth Hx]. inversion Hx as [|? ? Hx' _]; subst.
    rewrite length_app. cbn [length]. rewrite Nat.add_1_r. cbn [move_bwd].
    rewrite bind_run. unfold move_assign.
    rewrite map_app in Hd. cbn [map] in Hd.
    replace (length pre + length seg) with (length (pre ++ map Live seg))
      by (rewrite length_app, length_map; done).
    rewrite bind_run, (read_mid (SBuf r) (pre ++ map Live seg) x (Live z :: post))
      by (simpl; rewrite Hd; rewrite <- !app_assoc; reflexivity).
    rewrite Hx'.
    replace (length pre + S (length seg) + 1 - 1)
      with (length ((pre ++ map Live seg) ++ [Live x]))
      by (rewrite !length_app, length_map; simpl; lia).
    rewrite bind_run, (assign_mid r ((pre ++ map Live seg) ++ [Live x]) z post)
      by (rewrite Hd; rewrite <- !app_assoc; reflexivity).
    rewrite set_slot_run by (autorewrite with mach; rewrite !length_app; simpl; lia).
    autorewrite with mach.
    replace (((pre ++ map Live seg) ++ [Live x]) ++ Live x :: post)
      with ((pre ++ map Live seg) ++ Live x :: Live x :: post)
      by (rewrite <- !app_assoc; reflexivity).
    rewrite insert_mid.
    replace (length ((pre ++ map Live seg) ++ [Live x])) with (length pre + length seg + 1)
      by (rewrite !length_app, length_map; simpl; lia).
    rewrite (IH (moved_from et x) (Live x :: post))
      by (autorewrite with mach; by rewrite <- !app_assoc || exact Hth).
    autorewrite with mach. rewrite front_res_snoc, map_app.
    by rewrite <- !app_assoc.
Qed.

(** The same lemmas, with the indices given by equations. *)
Lemma destroy_n_at r i n pre xs post m :
  get_buf r m = pre ++ map Live xs ++ post -> length pre = i -> length xs = n ->
  destroy_n r i n m =
  Ok tt (tr_add (put_buf r (pre ++ replicate n Raw ++ post) m) (replicate n EvDestroy)).
Proof. intros H <- <-. by apply destroy_n_run. Qed.

Lemma uconstruct_at a r i n pre D post m :
  (forall k', default_throws et k' = false) ->
  get_buf r m = pre ++ D ++ post -> length pre = i -> length D = n ->
  uconstruct_go et a r i 0 n m =
  Ok tt (tr_add (put_buf r (pre ++ replicate n (Live a) ++ post) m)
                (replicate n EvConstruct)).
Proof. intros Hd H <- <-. apply uconstruct_go_run; [done | done | lia]. Qed.

(** The [j]-th construction of the loop throws: the [k] objects built
    before it are destroyed, and the exception propagates. *)
Lemma uconstruct_go_throw a r i k n j pre post m :
  (forall t, t < j -> default_throws et (k + t) = false) ->
  default_throws et (k + j) = true -> j < n ->
  get_buf r m = pre ++ map Live (replicate k a) ++ replicate n Raw ++ post ->
  length pre = i ->
  uconstruct_go et a r i k n m =
  Exn (tr_add (put_buf r (pre ++ replicate (k + n) Raw ++ post) m)
              (replicate j EvConstruct ++ replicate (k + j) EvDestroy)).
Proof.
  induction j as [|j IH] in k, n, m |- *; intros Hok Hj Hn H Hl;
    (destruct n as [|n]; [lia|]); cbn [uconstruct_go]; rewrite bind_run.
  - rewrite Nat.add_0_r in Hj. rewrite Hj. unfold on_exn; cbv [throw].
    rewrite (destroy_n_at r i k pre (replicate k a) (replicate (S n) Raw ++ post) m H Hl)
      by apply length_replicate.
    autorewrite with mach. rewrite Nat.add_0_r, replicate_add. cbn [replicate app].
    by rewrite <- app_assoc.
  - pose proof (Hok 0 ltac:(lia)) as H0. rewrite Nat.add_0_r in H0. rewrite H0.
    unfold on_exn.
    replace (i + k) with (length (pre ++ map Live (replicate k a)))
      by (rewrite length_app, length_map, length_replicate; lia).
    rewrite (construct_mid r _ Raw (replicate n Raw ++ post))
      by (rewrite H, <- app_assoc; reflexivity).
    rewrite (IH (S k) n) by
      (try (intros t Ht; replace (S k + t) with (k + S t) by lia; apply Hok; lia);
       try (replace (S k + j) with (k + S j) by lia; done); try lia;
       autorewrite with mach; rewrite replicate_S_end, map_app, <- !app_assoc; reflexivity).
    autorewrite with mach.
    replace (S k + n) with (k + S n) by lia. replace (S k + j) with (k + S j) by lia.
    reflexivity.
Qed.

Lemma copy_n_at s i n r j xs ys spre spost pre post m :
  (forall r', s = SBuf r' -> r' <> r) ->
  src_buf s m = spre ++ map Live xs ++ spost -> length spre = i ->
  get_buf r m = pre ++ map Live ys ++ post -> length pre = j ->
  length ys = length xs -> length xs = n ->
  Forall (fun a => copy_throws et a = false) xs ->
  copy_n et s i n r j m =
  Ok tt (tr_add (put_buf r (pre ++ map Live xs ++ post) m) (replicate n EvCopyAssign)).
Proof. intros Hal Hs <- Hd <- HD <-. by apply (copy_n_run s r xs ys spre spost pre post m). Qed.

Lemma ucopy_at s i r j xs spre spost pre D post n m :
  (forall r', s = SBuf r' -> r' <> r) ->
  src_buf s m = spre ++ map Live xs ++ spost -> length spre = i ->
  get_buf r m = pre ++ D ++ post -> length pre = j -> length D = length xs ->
  length xs = n ->
  Forall (fun a => copy_throws et a = false) xs ->
  uninitialized_copy_n et s i n r j m =
  Ok tt (tr_add (put_buf r (pre ++ map Live xs ++ post) m) (replicate n EvCopy)).
Proof.
  intros Hal Hs Hi Hd Hj HD <- Hth. unfold uninitialized_copy_n.
  apply (ucopy_go_run s i r j 0 xs spre spost pre D post m); rewrite ?Nat.add_0_r; done.
Qed.

Lemma move_fwd_at r i n j pre x ys post m :
  get_buf r m = pre ++ Live x :: map Live ys ++ post ->
  length pre = j -> i = S j -> length ys = n ->
  Forall (fun a => move_throws et a = false) ys ->
  move_fwd et r i n j m =
  Ok tt (tr_add (put_buf r (pre ++ map Live ys ++ Live (residue x ys) :: post) m)
                (replicate n EvMoveAssign)).
Proof. intros H <- -> <-. by apply move_fwd_run. Qed.

Lemma move_bwd_at r i n e pre seg z post m :
  get_buf r m = pre ++ map Live seg ++ Live z :: post ->
  length pre = i -> length seg = n -> e = i + n + 1 ->
  Forall (fun a => move_throws et a = false) seg ->
  move_bwd et r i n e m =
  Ok tt (tr_add (put_buf r (pre ++ Live (front_res z seg) :: map Live seg ++ post) m)
                (replicate n EvMoveAssign)).
Proof. intros H <- <- ->. by apply move_bwd_run. Qed.

End Loops.

(** ** The member functions on well-formed vectors *)

Ltac run_simpl :=
  cbn [get_capacity get_size alloc set_size emit swap_data_new put_buf get_buf
       src_buf src_size src_ref m_data m_size m_new m_trace ret throw undefined tr_add].

Ltac steps := repeat (rewrite bind_run; run_simpl).

Lemma construct_arg_val {A} (et : @ElemType A) r i a m :
  construct_arg et r i (Args (Some a)) m = construct r i a EvConstruct m.
Proof. reflexivity. Qed.

Section Runs.

Context {A : Type}.
Context (et : ElemType (A := A)).

Local Abbreviation moves := (moves et).
Local Abbreviation reloc_event := (reloc_event et).
Local Abbreviation reloc_throws := (reloc_throws et).
Local Abbreviation relocated := (relocated et).

Implicit Types (m : @Mach A) (xs ys : list A).

Lemma MoveOrCopy_run i n j xs spre spost pre D post m :
  m_data m = spre ++ map Live xs ++ spost -> length spre = i ->
  m_new m = pre ++ D ++ post -> length pre = j -> length D = length xs ->
  length xs = n ->
  Forall (fun a => reloc_throws a = false) xs ->
  MoveOrCopy et i n j m =
  Ok tt (mkMach (spre ++ map Live (relocated xs) ++ spost) (m_size m)
                (pre ++ map Live xs ++ post)
                (m_trace m ++ replicate (length xs) reloc_event)).
Proof.
  intros Hs <- Hd <- HD <- Hth. unfold MoveOrCopy, reloc_event, relocated, reloc_throws, moves in *.
  destruct (nothrow_move et || negb (copy_constructible et)).
  - unfold uninitialized_move_n.
    rewrite (umove_go_run et (length spre) (length pre) 0 xs spre spost pre D post m);
      rewrite ?Nat.add_0_r; done.
  - unfold uninitialized_copy_n.
    rewrite (ucopy_go_run et (SBuf BData) (length spre) BNew (length pre) 0 xs spre spost pre D post m);
      rewrite ?Nat.add_0_r; try done.
    + destruct m; simpl in *; subst. reflexivity.
    + intros r' [= <-]. discriminate.
Qed.

Lemma start_mkV xs k :
  start (mkV xs k) = mkMach (map Live xs ++ replicate k Raw) (length xs) [] [].
Proof. reflexivity. Qed.

Lemma Capacity_mkV xs k : Capacity (mkV xs k) = length xs + k.
Proof. unfold Capacity, mkV; simpl. by rewrite length_app, length_map, length_replicate. Qed.

Lemma Size_mkV xs k : Size (mkV xs k) = length xs.
Proof. reflexivity. Qed.

Lemma replicate_split {T} n k (x : T) : k <= n -> replicate n x = replicate k x ++ replicate (n - k) x.
Proof. intros H. rewrite <- replicate_add. f_equal. lia. Qed.

Lemma Reserve_noop n v : n <= Capacity v -> run (Reserve et n) v = Ok tt (start v).
Proof.
  intros H. unfold run, Reserve. rewrite bind_run. simpl.
  unfold Capacity in H. by rewrite (proj2 (Nat.leb_le _ _) H).
Qed.

Lemma Reserve_grow_run xs k n :
  length xs + k < n ->
  Forall (fun a => reloc_throws a = false) xs ->
  exists m', run (Reserve et n) (mkV xs k) = Ok tt m' /\
    vec_of m' = mkV xs (n - length xs) /\
    m_trace m' = replicate (length xs) reloc_event ++ replicate (length xs) EvDestroy.
Proof.
  intros Hn Hth. unfold run, Reserve. rewrite start_mkV, !bind_run. run_simpl.
  rewrite length_app, length_map, length_replicate.
  rewrite (proj2 (Nat.leb_gt _ _) Hn), !bind_run. run_simpl.
  assert (Hl : length (relocated xs) = length xs)
    by (unfold relocated; destruct moves; rewrite ?length_map; done).
  steps.
  rewrite (MoveOrCopy_run 0 (length xs) 0 xs [] (replicate k Raw) [] (replicate (length xs) Raw)
             (replicate (n - length xs) Raw)); simpl;
    rewrite ?length_replicate; try done.
  2: apply replicate_split; lia.
  steps.
  rewrite (destroy_n_at BData 0 (length xs) [] (relocated xs) (replicate k Raw))
    by done.
  simpl. eexists; split; [reflexivity|]. split; [reflexivity|done].
Qed.

Lemma construct_at r i pre x post m a e :
  get_buf r m = pre ++ x :: post -> length pre = i ->
  construct r i a e m = Ok tt (tr_add (put_buf r (pre ++ Live a :: post) m) [e]).
Proof. intros H <-. by apply (construct_mid r pre x post). Qed.

Lemma assign_at r i pre x post m a e :
  get_buf r m = pre ++ Live x :: post -> length pre = i ->
  assign r i a e m = Ok tt (tr_add (put_buf r (pre ++ Live a :: post) m) [e]).
Proof. intros H <-. by apply (assign_mid r pre x post). Qed.

Lemma destroy_at r i pre x post m :
  get_buf r m = pre ++ Live x :: post -> length pre = i ->
  destroy r i m = Ok tt (tr_add (put_buf r (pre ++ Raw :: post) m) [EvDestroy]).
Proof. intros H <-. by apply (destroy_mid r pre x post). Qed.

Lemma grown_gt n : n < grown n.
Proof. unfold grown. destruct (Nat.eqb_spec n 0); lia. Qed.

Lemma grown_max n : grown n = Nat.max 1 (2 * n).
Proof. unfold grown. destruct (Nat.eqb_spec n 0); lia. Qed.

Lemma length_relocated xs : length (relocated xs) = length xs.
Proof. unfold relocated; destruct moves; rewrite ?length_map; done. Qed.

Lemma mkV_snoc xs a k :
  mkVector (map Live xs ++ Live a :: replicate k Raw) (S (length xs)) = mkV (xs ++ [a]) k.
Proof.
  unfold mkV. rewrite map_app, length_app, <- app_assoc. simpl. f_equal. lia.
Qed.

(** [EmplaceBack] at full capacity: the new element is built in slot
    [size] of a buffer of [grown size] slots, then the old elements are
    relocated and destroyed. *)
Lemma EmplaceBack_grow_run xs a :
  Forall (fun x => reloc_throws x = false) xs ->
  exists m', run (EmplaceBack et (Args (Some a))) (mkV xs 0) = Ok (length xs) m' /\
    vec_of m' = mkV (xs ++ [a]) (grown (length xs) - S (length xs)) /\
    m_trace m' = EvConstruct :: (replicate (length xs) reloc_event
                                 ++ replicate (length xs) EvDestroy).
Proof.
  intros Hth. unfold run, EmplaceBack. rewrite start_mkV. steps.
  rewrite length_app, length_map, length_replicate, Nat.add_0_r, Nat.eqb_refl.
  steps. rewrite construct_arg_val.
  pose proof (grown_gt (length xs)) as Hg.
  rewrite (construct_at BNew (length xs) (replicate (length xs) Raw) Raw
             (replicate (grown (length xs) - S (length xs)) Raw)).
  2: { simpl. rewrite (replicate_split (grown (length xs)) (length xs)) by lia.
       f_equal. replace (grown (length xs) - length xs)
         with (S (grown (length xs) - S (length xs))) by lia. reflexivity. }
  2: apply length_replicate.
  steps.
  rewrite (MoveOrCopy_run 0 (length xs) 0 xs [] (replicate 0 Raw) []
             (replicate (length xs) Raw)
             (Live a :: replicate (grown (length xs) - S (length xs)) Raw));
    simpl; rewrite ?length_replicate; try done.
  steps.
  rewrite (destroy_n_at BData 0 (length xs) [] (relocated xs) [])
    by (simpl; rewrite ?length_relocated; done).
  simpl. eexists; split; [reflexivity|]. split.
  - apply mkV_snoc.
  - done.
Qed.

(** [EmplaceBack] below capacity. *)
Lemma EmplaceBack_room_run xs k a :
  exists m', run (EmplaceBack et (Args (Some a))) (mkV xs (S k)) = Ok (length xs) m' /\
    vec_of m' = mkV (xs ++ [a]) k /\ m_trace m' = [EvConstruct].
Proof.
  unfold run, EmplaceBack. rewrite start_mkV. steps.
  rewrite length_app, length_map, length_replicate.
  rewrite (proj2 (Nat.eqb_neq _ _)) by lia. steps. rewrite construct_arg_val.
  rewrite (construct_at BData (length xs) (map Live xs) Raw (replicate k Raw))
    by (simpl; rewrite ?length_map; done).
  steps. eexists; split; [reflexivity|]. split; [apply mkV_snoc|done].
Qed.

(** [EmplaceBack] whose constructor throws, at full capacity: the vector
    is left as it was and no element operation has run. *)
Lemma EmplaceBack_throw_full v :
  Size v = Capacity v ->
  run (EmplaceBack et (Args None)) v
  = Exn (mkMach (data_ v) (size_ v) (replicate (grown (size_ v)) Raw) []).
Proof.
  unfold Size, Capacity. intros H. unfold run, EmplaceBack, start. steps.
  rewrite H, Nat.eqb_refl. steps. rewrite <- H. reflexivity.
Qed.

(** [Emplace] at full capacity. *)
Lemma Emplace_grow_run xs p a :
  p <= length xs ->
  Forall (fun x => reloc_throws x = false) xs ->
  exists m', run (Emplace et p (Args (Some a))) (mkV xs 0) = Ok p m' /\
    vec_of m' = mkV (ins_at p a xs) (grown (length xs) - S (length xs)) /\
    m_trace m' = EvConstruct :: (replicate p reloc_event
                                 ++ replicate (length xs - p) reloc_event
                                 ++ replicate (length xs) EvDestroy).
Proof.
  intros Hp Hth. set (n := length xs). set (g := grown n).
  assert (Hg : n < g) by apply grown_gt.
  unfold run, Emplace. rewrite start_mkV. steps.
  rewrite (proj2 (Nat.ltb_ge _ _) Hp). steps.
  rewrite length_app, length_map, length_replicate, Nat.add_0_r, Nat.eqb_refl.
  steps. rewrite construct_arg_val.
  rewrite (construct_at BNew p (replicate p Raw) Raw (replicate (g - S p) Raw)).
  2: { simpl. rewrite (replicate_split g p) by lia. f_equal.
       replace (g - p) with (S (g - S p)) by lia. reflexivity. }
  2: apply length_replicate.
  steps.
  assert (Hxs : xs = take p xs ++ drop p xs) by (symmetry; apply take_drop).
  assert (Htk : length (take p xs) = p) by (rewrite length_take; lia).
  assert (Hdr : length (drop p xs) = n - p) by (rewrite length_drop; done).
  rewrite (MoveOrCopy_run 0 p 0 (take p xs) [] (map Live (drop p xs)) []
             (replicate p Raw) (Live a :: replicate (g - S p) Raw));
    simpl; rewrite ?length_replicate; try done.
  2: { rewrite <- map_app, <- Hxs. apply app_nil_r. }
  2: by apply Forall_take.
  steps.
  rewrite (MoveOrCopy_run p (n - p) (p + 1) (drop p xs) (map Live (relocated (take p xs))) []
             (map Live (take p xs) ++ [Live a]) (replicate (n - p) Raw)
             (replicate (g - S n) Raw));
    simpl; rewrite ?length_map, ?length_relocated, ?length_app, ?length_replicate; try done.
  2: by rewrite app_nil_r.
  2: { rewrite <- app_assoc. simpl. f_equal. f_equal.
       rewrite <- replicate_add. f_equal. lia. }
  2: rewrite length_map, Htk; simpl; lia.
  2: by apply Forall_drop.
  steps. fold n.
  rewrite (destroy_n_at BData 0 n [] (relocated (take p xs) ++ relocated (drop p xs)) []);
    simpl; rewrite ?length_app, ?length_relocated; try lia.
  2: rewrite map_app; rewrite <- app_assoc; reflexivity.
  steps. eexists; split; [reflexivity|]. split.
  - unfold vec_of, mkV, ins_at. cbn [m_data m_size]. f_equal.
    + rewrite map_app. simpl. rewrite <- !app_assoc. reflexivity.
    + rewrite length_app. simpl. rewrite Htk, Hdr. unfold n. lia.
  - simpl. rewrite Htk, Hdr, <- app_assoc. reflexivity.
Qed.

(** [Emplace] at [end()] below capacity. *)
Lemma Emplace_end_run xs k a :
  exists m', run (Emplace et (length xs) (Args (Some a))) (mkV xs (S k)) = Ok (length xs) m' /\
    vec_of m' = mkV (xs ++ [a]) k /\ m_trace m' = [EvConstruct].
Proof.
  unfold run, Emplace. rewrite start_mkV. steps.
  rewrite Nat.ltb_irrefl. steps.
  rewrite length_app, length_map, length_replicate.
  rewrite (proj2 (Nat.eqb_neq _ _)) by lia. rewrite Nat.eqb_refl.
  steps. rewrite construct_arg_val.
  rewrite (construct_at BData (length xs) (map Live xs) Raw (replicate k Raw))
    by (simpl; rewrite ?length_map; done).
  steps. eexists; split; [reflexivity|]. split; [apply mkV_snoc|done].
Qed.

(** [Emplace] in the middle below capacity: the last element is moved into
    the free slot, the range is shifted right by move assignment, and the
    new value is move-assigned from a temporary. *)
Lemma Emplace_mid_run pre seg z k a :
  Forall (fun x => move_throws et x = false) (seg ++ [z]) ->
  move_throws et a = false ->
  exists m', run (Emplace et (length pre) (Args (Some a))) (mkV (pre ++ seg ++ [z]) (S k))
             = Ok (length pre) m' /\
    vec_of m' = mkV (pre ++ a :: seg ++ [z]) k /\
    m_trace m' = EvMove :: (replicate (length seg) EvMoveAssign
                            ++ [EvConstruct; EvMoveAssign; EvDestroy]).
Proof.
  intros Hth Ha. apply Forall_app in Hth as [Hseg Hz].
  inversion Hz as [|? ? Hz' _]; subst.
  set (n := length (pre ++ seg ++ [z])).
  assert (Hn : n = length pre + length seg + 1)
    by (unfold n; rewrite !length_app; simpl; lia).
  unfold run, Emplace. rewrite start_mkV. steps. fold n.
  rewrite (proj2 (Nat.ltb_ge _ _)) by lia. steps.
  rewrite length_app, length_map, length_replicate. fold n.
  rewrite (proj2 (Nat.eqb_neq _ _)) by lia.
  rewrite (proj2 (Nat.eqb_neq _ _)) by lia.
  steps. unfold move_construct. steps.
  replace (n - 1) with (length (map Live (pre ++ seg)))
    by (rewrite length_map, length_app; lia).
  rewrite (read_mid (SBuf BData) (map Live (pre ++ seg)) z (Raw :: replicate k Raw)).
  2: { simpl. rewrite !map_app, <- !app_assoc. reflexivity. }
  rewrite length_map, length_app.
  rewrite Hz'. steps.
  rewrite (construct_at BData n (map Live (pre ++ seg) ++ [Live z]) Raw (replicate k Raw)).
  2: { simpl. rewrite !map_app, <- !app_assoc. reflexivity. }
  2: { rewrite length_app, length_map, length_app; simpl; lia. }
  steps.
  rewrite set_slot_run.
  2: { simpl. rewrite !length_app, length_map, length_app; simpl; lia. }
  steps. rewrite <- app_assoc. cbn [app].
  replace (length pre + length seg) with (length (map Live (pre ++ seg)))
    by (rewrite length_map, length_app; done).
  rewrite insert_mid. steps.
  replace (length (map Live (pre ++ seg)) - length pre) with (length seg)
    by (rewrite length_map, length_app; lia).
  rewrite (move_bwd_at et BData (length pre) (length seg) n (map Live pre) seg
             (moved_from et z) (Live z :: replicate k Raw));
    simpl; rewrite ?length_map; try done; try lia.
  2: { rewrite map_app, <- app_assoc. reflexivity. }
  steps. rewrite Ha. steps.
  rewrite (assign_at BData (length pre) (map Live pre) (front_res et (moved_from et z) seg)
             (map Live seg ++ Live z :: replicate k Raw))
    by (simpl; rewrite ?length_map; done).
  steps.
  eexists; split; [reflexivity|]. split.
  - unfold vec_of, mkV. cbn [m_data m_size]. f_equal.
    + rewrite !map_app. simpl. rewrite !map_app. simpl.
      rewrite <- app_assoc, <- app_comm_cons, <- app_assoc. reflexivity.
    + rewrite !length_app. simpl. rewrite length_app. simpl. lia.
  - simpl. rewrite <- !app_assoc. reflexivity.
Qed.

(** The middle path of [Emplace] up to the construction of the temporary:
    the argument is made from the state after the shift. *)
Lemma Emplace_mid_state pre seg z k arg :
  Forall (fun x => move_throws et x = false) (seg ++ [z]) ->
  run (Emplace et (length pre) arg) (mkV (pre ++ seg ++ [z]) (S k))
  = (a ← make_arg et arg; emit EvConstruct;;
     (if move_throws et a then emit EvDestroy;; throw
      else assign BData (length pre) a EvMoveAssign;; emit EvDestroy);;
     set_size (S (length pre + length seg + 1));; ret (length pre))
    (mkMach (map Live pre ++ Live (front_res et (moved_from et z) seg)
               :: map Live seg ++ Live z :: replicate k Raw)
            (length pre + length seg + 1)
            (replicate (grown (length pre + length seg + 1)) Raw)
            (EvMove :: replicate (length seg) EvMoveAssign)).
Proof.
  intros Hth. apply Forall_app in Hth as [Hseg Hz].
  inversion Hz as [|? ? Hz' _]; subst.
  set (n := length (pre ++ seg ++ [z])).
  assert (Hn : n = length pre + length seg + 1)
    by (unfold n; rewrite !length_app; simpl; lia).
  unfold run, Emplace. rewrite start_mkV. steps. fold n.
  rewrite (proj2 (Nat.ltb_ge _ _)) by lia. steps.
  rewrite length_app, length_map, length_replicate. fold n.
  rewrite (proj2 (Nat.eqb_neq _ _)) by lia.
  rewrite (proj2 (Nat.eqb_neq _ _)) by lia.
  steps. unfold move_construct. steps.
  replace (n - 1) with (length (map Live (pre ++ seg)))
    by (rewrite length_map, length_app; lia).
  rewrite (read_mid (SBuf BData) (map Live (pre ++ seg)) z (Raw :: replicate k Raw)).
  2: { simpl. rewrite !map_app, <- !app_assoc. reflexivity. }
  rewrite length_map, length_app.
  rewrite Hz'. steps.
  rewrite (construct_at BData n (map Live (pre ++ seg) ++ [Live z]) Raw (replicate k Raw)).
  2: { simpl. rewrite !map_app, <- !app_assoc. reflexivity. }
  2: { rewrite length_app, length_map, length_app; simpl; lia. }
  steps.
  rewrite set_slot_run.
  2: { simpl. rewrite !length_app, length_map, length_app; simpl; lia. }
  steps. rewrite <- app_assoc. cbn [app].
  replace (length pre + length seg) with (length (map Live (pre ++ seg)))
    by (rewrite length_map, length_app; done).
  rewrite insert_mid. steps.
  replace (length (map Live (pre ++ seg)) - length pre) with (length seg)
    by (rewrite length_map, length_app; lia).
  rewrite (move_bwd_at et BData (length pre) (length seg) n (map Live pre) seg
             (moved_from et z) (Live z :: replicate k Raw));
    simpl; rewrite ?length_map; try done; try lia.
  2: { rewrite map_app, <- app_assoc. reflexivity. }
  unfold tr_add. cbn [m_data m_size m_new m_trace app].
  rewrite Hn, ?length_app. reflexivity.
Qed.

(** [Insert(begin() + p, v[j])] with spare capacity and [p < j]: the
    copy is made after the shift, from the slot [j] that then holds the
    old [v[j - 1]]. *)
Lemma Insert_mid_elem pre seg z k j b :
  Forall (fun x => move_throws et x = false) (seg ++ [z]) ->
  length pre < j -> (pre ++ seg ++ [z]) !! (j - 1) = Some b ->
  copy_throws et b = false -> move_throws et b = false ->
  exists m, run (Insert et (length pre) (Elem j)) (mkV (pre ++ seg ++ [z]) (S k))
            = Ok (length pre) m /\
    vec_of m = mkV (pre ++ b :: seg ++ [z]) k.
Proof.
  intros Hth Hj Hb Hc Hm.
  unfold Insert, copy_of. rewrite (Emplace_mid_state pre seg z k (CopyOf j) Hth).
  rewrite lookup_app_r in Hb by lia.
  replace (j - 1 - length pre) with (j - S (length pre)) in Hb by lia.
  destruct (list_elem_of_split_length _ _ _ Hb) as (l1 & l2 & Hl & Hd).
  rewrite bind_run. cbn [make_arg]. rewrite bind_run.
  set (r := front_res et (moved_from et z) seg).
  assert (Hbuf : map Live pre ++ Live r :: map Live seg ++ Live z :: replicate k Raw
                 = (map Live pre ++ Live r :: map Live l1) ++ Live b :: map Live l2 ++ replicate k Raw).
  { rewrite <- app_assoc. cbn [app]. do 2 f_equal.
    transitivity (map Live (seg ++ [z]) ++ replicate k Raw);
      [by rewrite map_app, <- app_assoc | ].
    rewrite Hl, map_app, <- app_assoc. reflexivity. }
  rewrite Hbuf.
  replace j with (length (map Live pre ++ Live r :: map Live l1))
    by (rewrite length_app, length_map; cbn [length]; rewrite length_map; lia).
  rewrite (read_mid (SBuf BData) (map Live pre ++ Live r :: map Live l1) b
             (map Live l2 ++ replicate k Raw)) by reflexivity.
  rewrite Hc. cbv [ret]. steps. rewrite Hm. steps.
  rewrite (assign_at BData (length pre) (map Live pre) r
             (map Live l1 ++ Live b :: map Live l2 ++ replicate k Raw))
    by (rewrite ?length_map; cbn [get_buf m_data]; rewrite <- ?app_assoc; reflexivity).
  steps.
  eexists; split; [reflexivity|].
  unfold vec_of, mkV. cbn [m_data m_size]. f_equal.
  - unfold tr_add. cbn [put_buf m_data]. rewrite map_app. cbn [map].
    rewrite Hl, map_app. cbn [map app]. rewrite <- !app_assoc. cbn [app].
    rewrite <- !app_assoc. reflexivity.
  - rewrite !length_app. cbn [length]. rewrite length_app. cbn [length]. lia.
Qed.

(** [Erase] at a position [p < size]. *)
Lemma Erase_run pre x ys k :
  Forall (fun y => move_throws et y = false) ys ->
  exists m', run (Erase et (length pre)) (mkV (pre ++ x :: ys) k) = Ok (length pre) m' /\
    vec_of m' = mkV (pre ++ ys) (S k) /\
    m_trace m' = replicate (length ys) EvMoveAssign ++ [EvDestroy].
Proof.
  intros Hth. set (n := length (pre ++ x :: ys)).
  assert (Hn : n = S (length pre + length ys))
    by (unfold n; rewrite length_app; simpl; lia).
  unfold run, Erase. rewrite start_mkV. steps. fold n.
  rewrite (proj2 (Nat.eqb_neq _ _)) by lia.
  rewrite (proj2 (Nat.leb_gt _ _)) by lia.
  steps.
  rewrite (move_fwd_at et BData (S (length pre)) (n - S (length pre)) (length pre)
             (map Live pre) x ys (replicate k Raw));
    simpl; rewrite ?length_map; try done; try lia.
  2: { rewrite map_app, <- app_assoc. reflexivity. }
  unfold PopBack. steps. fold n.
  rewrite (proj2 (Nat.eqb_neq _ _)) by lia. steps.
  rewrite (destroy_at BData (n - 1) (map Live pre ++ map Live ys) (residue et x ys)
             (replicate k Raw)).
  2: { simpl. by rewrite <- app_assoc. }
  2: { rewrite length_app, !length_map. lia. }
  steps. eexists; split; [reflexivity|]. split.
  - unfold vec_of, mkV. run_simpl. f_equal.
    + rewrite map_app. reflexivity.
    + rewrite length_app. lia.
  - run_simpl. replace (n - S (length pre)) with (length ys) by lia. reflexivity.
Qed.

(** [Erase] on an empty vector returns its argument and changes nothing. *)
Lemma Erase_empty v p : Size v = 0 -> run (Erase et p) v = Ok p (start v).
Proof. unfold Size. intros H. unfold run, Erase, start. steps. by rewrite H. Qed.

(** [operator=] from another vector that fits in the capacity: the common
    prefix is copy-assigned, then the excess is destroyed or the rest of
    the source is copy-constructed. *)
Lemma CopyAssign_fit_run xs k ys k' :
  length ys <= length xs + k ->
  Forall (fun y => copy_throws et y = false) ys ->
  exists m', run (CopyAssign et (SrcOther (mkV ys k'))) (mkV xs k) = Ok tt m' /\
    vec_of m' = mkV ys (length xs + k - length ys) /\
    m_trace m' = replicate (Nat.min (length xs) (length ys)) EvCopyAssign
                 ++ replicate (length xs - length ys) EvDestroy
                 ++ replicate (length ys - length xs) EvCopy.
Proof.
  intros Hfit Hth. unfold run, CopyAssign. rewrite start_mkV. steps.
  change (size_ (mkV ys k')) with (length ys).
  rewrite length_app, length_map, length_replicate.
  rewrite (proj2 (Nat.ltb_ge _ _) Hfit). steps.
  destruct (Nat.le_gt_cases (length ys) (length xs)) as [Hle|Hgt].
  - (* the target is at least as long *)
    rewrite (Nat.min_r _ _ Hle).
    assert (Hxs : xs = take (length ys) xs ++ drop (length ys) xs)
      by (symmetry; apply take_drop).
    assert (Htk : length (take (length ys) xs) = length ys) by (rewrite length_take; lia).
    rewrite (copy_n_at et (SExt (mkV ys k').(data_)) 0 (length ys) BData 0 ys
               (take (length ys) xs) [] (replicate k' Raw) []
               (map Live (drop (length ys) xs) ++ replicate k Raw));
      try done.
    2: { simpl. rewrite (app_assoc (map Live _)), <- map_app, <- Hxs. reflexivity. }
    steps.
    destruct (Nat.ltb_spec (length ys) (length xs)) as [Hlt|Hge].
    + steps.
      rewrite (destroy_n_at BData (length ys) (length xs - length ys) (map Live ys)
                 (drop (length ys) xs) (replicate k Raw));
        simpl; rewrite ?length_map, ?length_drop; try done.
      steps. eexists; split; [reflexivity|]. split.
      * unfold vec_of, mkV. run_simpl. f_equal.
        rewrite <- replicate_add. do 2 f_equal. lia.
      * replace (length ys - length xs) with 0 by lia. simpl.
        by rewrite app_nil_r.
    + rewrite (proj2 (Nat.ltb_ge _ _)) by lia. steps.
      assert (Hd : drop (length ys) xs = []) by (apply drop_ge; lia).
      eexists; split; [reflexivity|]. split.
      * unfold vec_of, mkV. run_simpl. rewrite Hd. simpl.
        replace (length xs + k - length ys) with k by lia. reflexivity.
      * replace (length ys - length xs) with 0 by lia.
        replace (length xs - length ys) with 0 by lia. simpl.
        by rewrite !app_nil_r.
  - (* the source is longer *)
    rewrite (Nat.min_l _ _ (Nat.lt_le_incl _ _ Hgt)).
    assert (Hys : ys = take (length xs) ys ++ drop (length xs) ys)
      by (symmetry; apply take_drop).
    assert (Htk : length (take (length xs) ys) = length xs) by (rewrite length_take; lia).
    rewrite (copy_n_at et (SExt (mkV ys k').(data_)) 0 (length xs) BData 0 (take (length xs) ys)
               xs [] (map Live (drop (length xs) ys) ++ replicate k' Raw) []
               (replicate k Raw));
      try done.
    2: { simpl. rewrite (app_assoc (map Live _)), <- map_app, <- Hys. reflexivity. }
    2: { by apply Forall_take. }
    steps.
    rewrite (proj2 (Nat.ltb_ge _ _)) by lia.
    rewrite (proj2 (Nat.ltb_lt _ _) Hgt). steps.
    rewrite (ucopy_at et (SExt (mkV ys k').(data_)) (length xs) BData (length xs)
               (drop (length xs) ys) (map Live (take (length xs) ys)) (replicate k' Raw)
               (map Live (take (length xs) ys)) (replicate (length ys - length xs) Raw)
               (replicate (length xs + k - length ys) Raw));
      simpl; rewrite ?length_map, ?length_drop, ?length_replicate; try done.
    2: { rewrite (app_assoc (map Live _)), <- map_app, <- Hys. reflexivity. }
    2: { f_equal. rewrite <- replicate_add. f_equal. lia. }
    2: { by apply Forall_drop. }
    steps. eexists; split; [reflexivity|]. split.
    + unfold vec_of, mkV. run_simpl. f_equal.
      rewrite (app_assoc (map Live _)), <- map_app, <- Hys. reflexivity.
    + replace (length xs - length ys) with 0 by lia. simpl. reflexivity.
Qed.

(** [v = v]: the vector copy-assigned to itself. *)
Lemma CopyAssign_self_run xs k :
  match run (CopyAssign et SrcSelf) (mkV xs k) with
  | Ok _ m' | Exn m' => vec_of m' = mkV xs k
  | UB => False
  end.
Proof.
  unfold run, CopyAssign. rewrite start_mkV. steps.
  rewrite length_app, length_map, length_replicate.
  rewrite (proj2 (Nat.ltb_ge _ _)) by lia. steps.
  rewrite Nat.min_id.
  pose proof (copy_n_self et [] xs (replicate k Raw)
                (mkMach (map Live xs ++ replicate k Raw) (length xs) [] [])) as Hs.
  simpl in Hs. specialize (Hs eq_refl).
  destruct (copy_n et (SBuf BData) 0 (length xs) BData 0 _) as [[] m'|m'|]; [|..|exact Hs].
  - destruct Hs as [H1 H2]. rewrite Nat.ltb_irrefl. cbv [ret]. steps. rewrite H2.
    unfold vec_of, mkV. simpl. by rewrite H1.
  - destruct Hs as [H1 H2]. unfold vec_of, mkV. by rewrite H1, H2.
Qed.

(** [Resize] to a smaller or equal size: the tail is destroyed in place. *)
Lemma Resize_down_run xs k n :
  n <= length xs ->
  exists m', run (Resize et n) (mkV xs k) = Ok tt m' /\
    vec_of m' = mkV (take n xs) (length xs - n + k) /\
    m_trace m' = replicate (length xs - n) EvDestroy.
Proof.
  intros Hn. unfold run, Resize. rewrite start_mkV. steps.
  rewrite (proj2 (Nat.ltb_ge _ _) Hn). steps.
  assert (Hxs : xs = take n xs ++ drop n xs) by (symmetry; apply take_drop).
  assert (Htk : length (take n xs) = n) by (rewrite length_take; lia).
  rewrite (destroy_n_at BData n (length xs - n) (map Live (take n xs)) (drop n xs)
             (replicate k Raw));
    simpl; rewrite ?length_map, ?length_drop; try done.
  2: { rewrite Hxs at 1. by rewrite map_app, <- app_assoc. }
  steps. eexists; split; [reflexivity|]. split; [|done].
  unfold vec_of, mkV. run_simpl. rewrite Htk. f_equal.
  rewrite replicate_add. reflexivity.
Qed.

End Runs.

(** ** What a run leaves unchanged *)

Create HintDb frame.

Section Frames.

Context {A : Type}.
Context (et : ElemType (A := A)).

Local Abbreviation wp := (wp (A := A)).
Local Abbreviation lens := (lens (A := A)).
Local Abbreviation frame := (frame (A := A)).
Local Abbreviation keeps_vec := (keeps_vec (A := A)).
Local Abbreviation nothrow := (nothrow (A := A)).

Implicit Types (m : @Mach A) (r : bufref).

Lemma wp_bind {X Y} (p : M X) (f : X -> M Y) Q E m :
  wp p (fun x m' => wp (f x) Q E m') E m -> wp (p ≫= f) Q E m.
Proof. unfold wp. rewrite bind_run. by destruct (p m). Qed.

Lemma wp_conseq {X} (p : M X) (Q Q' : X -> Mach -> Prop) (E E' : Mach -> Prop) m :
  wp p Q E m -> (forall x m', Q x m' -> Q' x m') -> (forall m', E m' -> E' m') ->
  wp p Q' E' m.
Proof. unfold wp. destruct (p m); auto. Qed.

Lemma wp_frame {X} (p : M X) Q E m :
  frame p ->
  (forall x m', lens m' = lens m -> Q x m') -> (forall m', lens m' = lens m -> E m') ->
  wp p Q E m.
Proof. intros Hf. by apply wp_conseq, Hf. Qed.

Lemma wp_keeps {X} (p : M X) Q E m :
  keeps_vec p ->
  (forall x m', vec_of m' = vec_of m -> Q x m') -> (forall m', vec_of m' = vec_of m -> E m') ->
  wp p Q E m.
Proof. intros Hf. by apply wp_conseq, Hf. Qed.

Lemma wp_nothrow {X} (p : M X) Q E m :
  nothrow p -> (forall x m', Q x m') -> wp p Q E m.
Proof. intros Hn HQ. specialize (Hn m). unfold wp. destruct (p m); done. Qed.

Lemma wp_ret {X} (x : X) Q E m : Q x m -> wp (ret x) Q E m.
Proof. done. Qed.

Lemma wp_mret {X} (x : X) Q E m : Q x m -> wp (mret x) Q E m.
Proof. done. Qed.

Lemma wp_throw {X} Q E m : E m -> wp (@throw A X) Q E m.
Proof. done. Qed.

Lemma wp_undefined {X} Q E m : wp (@undefined A X) Q E m.
Proof. done. Qed.

Lemma wp_get_size Q E m : Q (m_size m) m -> wp get_size Q E m.
Proof. done. Qed.

Lemma wp_get_capacity Q E m : Q (length (m_data m)) m -> wp get_capacity Q E m.
Proof. done. Qed.

Lemma wp_set_size n Q E m : Q tt (mkMach (m_data m) n (m_new m) (m_trace m)) -> wp (set_size n) Q E m.
Proof. done. Qed.

Lemma wp_alloc n Q E m : Q tt (put_buf BNew (replicate n Raw) m) -> wp (alloc n) Q E m.
Proof. done. Qed.

Lemma wp_swap Q E m : Q tt (mkMach (m_new m) (m_size m) (m_data m) (m_trace m)) -> wp swap_data_new Q E m.
Proof. done. Qed.

(** *** Steps that keep the lengths of both blocks *)

Lemma frame_bind {X Y} (p : M X) (f : X -> M Y) :
  frame p -> (forall x, frame (f x)) -> frame (p ≫= f).
Proof.
  intros Hp Hf m. apply wp_bind, wp_frame; [done| |done].
  intros x m' H. apply wp_frame; [apply Hf | |]; intros; congruence.
Qed.

Lemma frame_ret {X} (x : X) : frame (ret x).
Proof. done. Qed.

Lemma frame_mret {X} (x : X) : frame (mret x).
Proof. done. Qed.

Lemma frame_throw {X} : frame (@throw A X).
Proof. done. Qed.

Lemma frame_undefined {X} : frame (@undefined A X).
Proof. done. Qed.

Lemma frame_get_size : frame get_size.
Proof. done. Qed.

Lemma frame_get_capacity : frame get_capacity.
Proof. done. Qed.

Lemma frame_set_size n : frame (set_size n).
Proof. done. Qed.

Lemma frame_emit e : frame (emit e).
Proof. done. Qed.

Lemma frame_read s i : frame (read s i).
Proof. intros m. unfold wp, read. by destruct (src_buf s m !! i) as [[]|]. Qed.

Lemma frame_set_slot r i x : frame (set_slot r i x).
Proof.
  intros m. unfold wp, set_slot. destruct (i <? length (get_buf r m)); [|done].
  destruct r; unfold lens; simpl; by rewrite length_insert.
Qed.

Lemma frame_on_exn {X} (p : M X) h : frame p -> frame h -> frame (on_exn p h).
Proof.
  intros Hp Hh m. specialize (Hp m). unfold wp, on_exn in *.
  destruct (p m) as [|m'|]; try done.
  specialize (Hh m'). unfold wp in Hh. destruct (h m'); congruence.
Qed.

#[local] Hint Resolve frame_ret frame_mret frame_throw frame_undefined frame_get_size
  frame_get_capacity frame_set_size frame_emit frame_read frame_set_slot : frame.

Ltac frame_tac :=
  repeat (intros; first
    [ apply frame_bind
    | apply frame_on_exn
    | match goal with |- frame (if ?b then _ else _) => destruct b end
    | match goal with |- frame (match ?x with _ => _ end) => destruct x end
    | solve [eauto with frame] ]).

Lemma frame_construct r i a e : frame (construct r i a e).
Proof. unfold construct. frame_tac. Qed.

Lemma frame_destroy r i : frame (destroy r i).
Proof.
  intros m. unfold destroy, wp. destruct (get_buf r m !! i) as [[|]|]; try done.
  apply (frame_bind _ _ (frame_set_slot _ _ _) (fun _ => frame_emit _)).
Qed.

Lemma frame_assign r i a e : frame (assign r i a e).
Proof.
  intros m. unfold assign, wp. destruct (get_buf r m !! i) as [[|]|]; try done.
  apply (frame_bind _ _ (frame_set_slot _ _ _) (fun _ => frame_emit _)).
Qed.
#[local] Hint Resolve frame_construct frame_destroy frame_assign : frame.

Lemma frame_copy_construct s i r j : frame (copy_construct et s i r j).
Proof. unfold copy_construct. frame_tac. Qed.

Lemma frame_move_construct rs i r j : frame (move_construct et rs i r j).
Proof. unfold move_construct. frame_tac. Qed.

Lemma frame_copy_assign s i r j : frame (copy_assign et s i r j).
Proof. unfold copy_assign. frame_tac. Qed.

Lemma frame_move_assign rs i r j : frame (move_assign et rs i r j).
Proof. unfold move_assign. frame_tac. Qed.

Lemma frame_make_arg arg : frame (make_arg et arg).
Proof. unfold make_arg. destruct arg as [[a|]|j|j]; frame_tac. Qed.
#[local] Hint Resolve frame_make_arg : frame.

Lemma frame_construct_arg r i arg : frame (construct_arg et r i arg).
Proof. unfold construct_arg. frame_tac. Qed.
#[local] Hint Resolve frame_copy_construct frame_move_construct frame_copy_assign
  frame_move_assign frame_construct_arg : frame.

Lemma frame_destroy_n r i n : frame (destroy_n r i n).
Proof. induction n in i |- *; simpl; frame_tac. Qed.
#[local] Hint Resolve frame_destroy_n : frame.

Lemma frame_ucopy_go s i r j k n : frame (ucopy_go et s i r j k n).
Proof. induction n in k |- *; simpl; frame_tac. Qed.

Lemma frame_umove_go rs i r j k n : frame (umove_go et rs i r j k n).
Proof. induction n in k |- *; simpl; frame_tac. Qed.

Lemma frame_uconstruct_go a r i k n : frame (uconstruct_go et a r i k n).
Proof. induction n in k |- *; simpl; frame_tac. Qed.

Lemma frame_copy_n s i n r j : frame (copy_n et s i n r j).
Proof. induction n in i, j |- *; simpl; frame_tac. Qed.

Lemma frame_move_fwd r i n j : frame (move_fwd et r i n j).
Proof. induction n in i, j |- *; simpl; frame_tac. Qed.

Lemma frame_move_bwd r i n e : frame (move_bwd et r i n e).
Proof. induction n in e |- *; simpl; frame_tac. Qed.
#[local] Hint Resolve frame_ucopy_go frame_umove_go frame_uconstruct_go frame_copy_n
  frame_move_fwd frame_move_bwd : frame.

Lemma frame_MoveOrCopy i n j : frame (MoveOrCopy et i n j).
Proof.
  unfold MoveOrCopy, uninitialized_move_n, uninitialized_copy_n. frame_tac.
Qed.

Lemma frame_PopBack : frame (PopBack (A := A)).
Proof. unfold PopBack. frame_tac. Qed.
#[local] Hint Resolve frame_MoveOrCopy frame_PopBack : frame.

End Frames.

Section Capacity.

Context {A : Type}.
Context (et : ElemType (A := A)).

Local Abbreviation wp := (wp (A := A)).
Local Abbreviation frame := (frame (A := A)).
Local Abbreviation cap_at_least := (cap_at_least (A := A)).

Implicit Types (m : @Mach A).

#[local] Hint Resolve frame_ret frame_mret frame_throw frame_undefined frame_get_size
  frame_get_capacity frame_set_size frame_emit frame_read frame_set_slot
  frame_construct frame_destroy frame_assign frame_copy_construct frame_move_construct
  frame_copy_assign frame_move_assign frame_make_arg frame_construct_arg frame_destroy_n
  frame_ucopy_go frame_umove_go frame_uconstruct_go frame_copy_n
  frame_move_fwd frame_move_bwd frame_MoveOrCopy frame_PopBack : frame.

Ltac wp_go1 :=
  match goal with
  | |- wp (if ?b then _ else _) _ _ _ => destruct b eqn:?
  | |- wp (match ?x with _ => _ end) _ _ _ => destruct x
  | |- wp (_ ≫= _) _ _ _ => apply wp_bind
  | |- wp get_size _ _ _ => apply wp_get_size
  | |- wp get_capacity _ _ _ => apply wp_get_capacity
  | |- wp (alloc _) _ _ _ => apply wp_alloc
  | |- wp swap_data_new _ _ _ => apply wp_swap
  | |- wp (set_size _) _ _ _ => apply wp_set_size
  | |- wp (ret _) _ _ _ => apply wp_ret
  | |- wp (mret _) _ _ _ => apply wp_mret
  | |- wp throw _ _ _ => apply wp_throw
  | |- wp undefined _ _ _ => apply wp_undefined
  | |- wp _ _ _ _ => apply wp_frame; [solve [eauto with frame] | intros ? ? ? | intros ? ?]
  end;
  cbv beta; unfold lens in *; cbn [put_buf m_data m_size m_new m_trace] in *;
  repeat match goal with H : (_, _) = (_, _) |- _ => injection H as ? ? end.
Ltac wp_go := repeat wp_go1.

Ltac bool_lia :=
  repeat match goal with
  | H : (_ <=? _) = true |- _ => apply Nat.leb_le in H
  | H : (_ <=? _) = false |- _ => apply Nat.leb_gt in H
  | H : (_ <? _) = true |- _ => apply Nat.ltb_lt in H
  | H : (_ <? _) = false |- _ => apply Nat.ltb_ge in H
  | H : (_ =? _) = true |- _ => apply Nat.eqb_eq in H
  | H : (_ =? _) = false |- _ => apply Nat.eqb_neq in H
  end;
  rewrite ?length_replicate in *; lia.

Lemma Reserve_cap n c m :
  c <= length (m_data m) ->
  wp (Reserve et n) (fun _ => cap_at_least c) (cap_at_least c) m.
Proof. unfold cap_at_least. intros Hc. unfold Reserve. wp_go; bool_lia. Qed.

Lemma Resize_cap n c m :
  c <= length (m_data m) ->
  wp (Resize et n) (fun _ => cap_at_least c) (cap_at_least c) m.
Proof.
  unfold cap_at_least. intros Hc. unfold Resize. wp_go; try bool_lia.
  eapply wp_conseq; [apply (Reserve_cap _ c); done | |]; intros; unfold cap_at_least in *; wp_go; bool_lia.
Qed.

Lemma EmplaceBack_cap arg c m :
  c <= length (m_data m) ->
  wp (EmplaceBack et arg) (fun _ => cap_at_least c) (cap_at_least c) m.
Proof.
  unfold cap_at_least. intros Hc. pose proof (grown_gt (m_size m)).
  unfold EmplaceBack. wp_go; bool_lia.
Qed.

Lemma PopBack_cap c m :
  c <= length (m_data m) ->
  wp (PopBack (A := A)) (fun _ => cap_at_least c) (cap_at_least c) m.
Proof. unfold cap_at_least. intros Hc. unfold PopBack. wp_go; bool_lia. Qed.

Lemma Emplace_cap p arg c m :
  c <= length (m_data m) ->
  wp (Emplace et p arg) (fun _ => cap_at_least c) (cap_at_least c) m.
Proof.
  unfold cap_at_least. intros Hc. pose proof (grown_gt (m_size m)).
  unfold Emplace. wp_go; bool_lia.
Qed.

Lemma Erase_cap p c m :
  c <= length (m_data m) ->
  wp (Erase et p) (fun _ => cap_at_least c) (cap_at_least c) m.
Proof. unfold cap_at_least. intros Hc. unfold Erase. wp_go; bool_lia. Qed.

Lemma CopyAssign_cap s c m :
  c <= length (m_data m) ->
  wp (CopyAssign et s) (fun _ => cap_at_least c) (cap_at_least c) m.
Proof.
  unfold cap_at_least. intros Hc. unfold CopyAssign, src_size, src_ref.
  wp_go; bool_lia.
Qed.

End Capacity.

(** ** Steps that only write into [new_data] *)

Create HintDb keeps.

Section CopyMode.

Context {A : Type}.
Context (et : ElemType (A := A)).


Implicit Types (m : @Mach A).

Lemma keeps_bind {X Y} (p : @M A X) (f : X -> @M A Y) :
  keeps_vec p -> (forall x, keeps_vec (f x)) -> keeps_vec (p ≫= f).
Proof.
  intros Hp Hf m. apply wp_bind, wp_keeps; [done| |done].
  intros x m' H. apply wp_keeps; [apply Hf | |]; intros; congruence.
Qed.

Lemma keeps_ret {X} (x : X) : keeps_vec (A := A) (ret x).
Proof. done. Qed.

Lemma keeps_throw {X} : keeps_vec (@throw A X).
Proof. done. Qed.

Lemma keeps_undefined {X} : keeps_vec (@undefined A X).
Proof. done. Qed.

Lemma keeps_get_size : keeps_vec (A := A) get_size.
Proof. done. Qed.

Lemma keeps_get_capacity : keeps_vec (A := A) get_capacity.
Proof. done. Qed.

Lemma keeps_emit e : keeps_vec (A := A) (emit e).
Proof. done. Qed.

Lemma keeps_alloc n : keeps_vec (A := A) (alloc n).
Proof. done. Qed.

Lemma keeps_read s i : keeps_vec (A := A) (read s i).
Proof. intros m. unfold wp, read. by destruct (src_buf s m !! i) as [[]|]. Qed.

Lemma keeps_set_slot_new i x : keeps_vec (A := A) (set_slot BNew i x).
Proof. intros m. unfold wp, set_slot. by destruct (i <? length (get_buf BNew m)). Qed.

Lemma keeps_on_exn {X} (p : @M A X) h : keeps_vec p -> keeps_vec h -> keeps_vec (on_exn p h).
Proof.
  intros Hp Hh m. specialize (Hp m). unfold wp, on_exn in *.
  destruct (p m) as [|m'|]; try done.
  specialize (Hh m'). unfold wp in Hh. destruct (h m'); congruence.
Qed.

#[local] Hint Resolve keeps_ret keeps_throw keeps_undefined keeps_get_size keeps_get_capacity
  keeps_emit keeps_alloc keeps_read keeps_set_slot_new : keeps.

Ltac keeps_tac :=
  repeat (intros; first
    [ apply keeps_bind
    | apply keeps_on_exn
    | match goal with |- keeps_vec (if ?b then _ else _) => destruct b end
    | match goal with |- keeps_vec (match ?x with _ => _ end) => destruct x end
    | solve [eauto with keeps] ]).

Lemma keeps_construct_new i a e : keeps_vec (A := A) (construct BNew i a e).
Proof. unfold construct. keeps_tac. Qed.

Lemma keeps_destroy_new i : keeps_vec (A := A) (destroy BNew i).
Proof.
  intros m. unfold destroy, wp. destruct (get_buf BNew m !! i) as [[|]|]; try done.
  apply (keeps_bind _ _ (keeps_set_slot_new _ _) (fun _ => keeps_emit _)).
Qed.
#[local] Hint Resolve keeps_construct_new keeps_destroy_new : keeps.

Lemma keeps_copy_construct_new s i j : keeps_vec (copy_construct et s i BNew j).
Proof. unfold copy_construct. keeps_tac. Qed.

Lemma keeps_construct_arg_new i arg :
  leaves_elems arg = true -> keeps_vec (construct_arg et BNew i arg).
Proof.
  intros Ha. unfold construct_arg, make_arg.
  destruct arg as [[a|]|j|j]; try discriminate; keeps_tac.
Qed.

Lemma keeps_destroy_n_new i n : keeps_vec (A := A) (destroy_n BNew i n).
Proof. induction n in i |- *; simpl; keeps_tac. Qed.
#[local] Hint Resolve keeps_copy_construct_new keeps_construct_arg_new keeps_destroy_n_new : keeps.

Lemma keeps_ucopy_go_new s i j k n : keeps_vec (ucopy_go et s i BNew j k n).
Proof. induction n in k |- *; simpl; keeps_tac. Qed.

(** In the copy branch of [MoveOrCopy], the old block is only read. *)
Lemma keeps_MoveOrCopy_copy i n j :
  moves et = false -> keeps_vec (MoveOrCopy et i n j).
Proof.
  unfold moves, MoveOrCopy. intros ->. unfold uninitialized_copy_n.
  apply keeps_ucopy_go_new.
Qed.

(** Destruction never throws. *)
Lemma nothrow_destroy_n r i n : nothrow (A := A) (destroy_n r i n).
Proof.
  induction n in i |- *; intros m; simpl; [done|].
  rewrite bind_run. unfold destroy.
  destruct (get_buf r m !! i) as [[|]|]; try done.
  rewrite bind_run. unfold set_slot.
  destruct (i <? length (get_buf r m)); [|done]. simpl. apply IHn.
Qed.

Lemma vec_of_start v : vec_of (A := A) (start v) = v.
Proof. by destruct v. Qed.

Ltac kv_go1 :=
  match goal with
  | |- wp (if ?b then _ else _) _ _ _ => destruct b eqn:?
  | |- wp (match ?x with _ => _ end) _ _ _ => destruct x
  | |- wp (_ ≫= _) _ _ _ => apply wp_bind
  | |- wp swap_data_new _ _ _ => apply wp_swap
  | |- wp (set_size _) _ _ _ => apply wp_set_size
  | |- wp (ret _) _ _ _ => apply wp_ret
  | |- wp get_size _ _ _ => apply wp_get_size
  | |- wp get_capacity _ _ _ => apply wp_get_capacity
  | |- wp (alloc _) _ _ _ => apply wp_alloc
  | |- wp (destroy_n BData _ _) _ _ _ =>
      apply wp_nothrow; [apply nothrow_destroy_n | intros ? ?]
  | |- wp (MoveOrCopy _ _ _ _) _ _ _ =>
      apply wp_keeps; [apply keeps_MoveOrCopy_copy; assumption | intros ? ? ? | intros ? ?]
  | |- wp _ _ _ _ => apply wp_keeps; [solve [eauto with keeps] | intros ? ? ? | intros ? ?]
  end; cbv beta.

Ltac kv_go :=
  repeat kv_go1; try done;
  unfold vec_of, start in *; cbn [put_buf m_data m_size] in *; try congruence.

(** With migration by copy, a [Reserve] that throws leaves the vector as it was. *)
Lemma Reserve_copy_exn n v :
  moves et = false ->
  match run (Reserve et n) v with Exn m' => vec_of m' = v | _ => True end.
Proof.
  intros Hc.
  assert (H : wp (Reserve et n) (fun _ _ => True)
                (fun m' => vec_of m' = vec_of (start v)) (start v))
    by (unfold Reserve; kv_go).
  unfold wp, run in *. rewrite vec_of_start in H. by destruct (Reserve et n (start v)).
Qed.

(** The same for the growth path of [EmplaceBack]. *)
Lemma EmplaceBack_copy_exn arg v :
  moves et = false -> leaves_elems arg = true -> Size v = Capacity v ->
  match run (EmplaceBack et arg) v with Exn m' => vec_of m' = v | _ => True end.
Proof.
  intros Hc Ha Hs. unfold Size, Capacity in Hs.
  assert (H : wp (EmplaceBack et arg) (fun _ _ => True)
                (fun m' => vec_of m' = vec_of (start v)) (start v)).
  { unfold EmplaceBack. kv_go. rewrite Hs, Nat.eqb_refl in *. discriminate. }
  unfold wp, run in *. rewrite vec_of_start in H. by destruct (EmplaceBack et arg (start v)).
Qed.

(** The same for the growth path of [Emplace]. *)
Lemma Emplace_copy_exn p arg v :
  moves et = false -> leaves_elems arg = true -> Size v = Capacity v ->
  match run (Emplace et p arg) v with Exn m' => vec_of m' = v | _ => True end.
Proof.
  intros Hc Ha Hs. unfold Size, Capacity in Hs.
  assert (H : wp (Emplace et p arg) (fun _ _ => True)
                (fun m' => vec_of m' = vec_of (start v)) (start v)).
  { unfold Emplace. kv_go; rewrite Hs, Nat.eqb_refl in *; discriminate. }
  unfold wp, run in *. rewrite vec_of_start in H. by destruct (Emplace et p arg (start v)).
Qed.

End CopyMode.

(** ** Insert and Erase on well-formed vectors *)

Section RoundTrip.

Context {A : Type}.
Context (et : ElemType (A := A)).

Local Abbreviation quiet := (quiet et).

Implicit Types (xs ys : list A).

Lemma Insert_run xs k p a :
  p <= length xs -> quiet a -> Forall quiet xs ->
  exists k' m, run (Insert et p (Ext a)) (mkV xs k) = Ok p m /\
    vec_of m = mkV (ins_at p a xs) k'.
Proof.
  intros Hp (Hca & Hma & _) Hq. unfold Insert, copy_of, copy_arg. rewrite Hca.
  assert (Hr : Forall (fun x => reloc_throws et x = false) xs)
    by (eapply Forall_impl; [exact Hq | intros x (? & ? & ?); done]).
  assert (Hm : Forall (fun x => move_throws et x = false) xs)
    by (eapply Forall_impl; [exact Hq | intros x (? & ? & ?); done]).
  destruct k as [|k].
  - destruct (Emplace_grow_run et xs p a Hp Hr) as (m & Hrun & Hv & _).
    eauto.
  - destruct (Nat.eq_dec p (length xs)) as [->|Hne].
    + destruct (Emplace_end_run et xs k a) as (m & Hrun & Hv & _).
      exists k, m. split; [done|]. rewrite Hv. unfold ins_at.
      by rewrite take_ge, drop_ge by lia.
    + assert (Hnil : drop p xs <> []).
      { intros Hd. apply (f_equal length) in Hd. rewrite length_drop in Hd. simpl in Hd. lia. }
      destruct (exists_last Hnil) as (seg & z & Hsz).
      assert (Hxs : xs = take p xs ++ seg ++ [z]) by (rewrite <- Hsz; symmetry; apply take_drop).
      assert (Htk : length (take p xs) = p) by (rewrite length_take; lia).
      assert (Hsm : Forall (fun x => move_throws et x = false) (seg ++ [z])).
      { rewrite <- Hsz. by apply Forall_drop. }
      destruct (Emplace_mid_run et (take p xs) seg z k a Hsm Hma) as (m & Hrun & Hv & _).
      rewrite Htk, <- Hxs in Hrun.
      exists k, m. split; [done|]. rewrite Hv. unfold ins_at. by rewrite Hsz.
Qed.

Lemma Erase_ins_at xs k p a :
  p <= length xs -> Forall quiet xs ->
  exists m, run (Erase et p) (mkV (ins_at p a xs) k) = Ok p m /\ vec_of m = mkV xs (S k).
Proof.
  intros Hp Hq.
  assert (Htk : length (take p xs) = p) by (rewrite length_take; lia).
  assert (Hm : Forall (fun x => move_throws et x = false) (drop p xs)).
  { apply Forall_drop. eapply Forall_impl; [exact Hq | intros x (? & ? & ?); done]. }
  destruct (Erase_run et (take p xs) a (drop p xs) k Hm) as (m & Hrun & Hv & _).
  rewrite Htk in Hrun. exists m. split; [done|]. by rewrite Hv, take_drop.
Qed.

Lemma Erase_del_at xs k p x :
  xs !! p = Some x -> Forall quiet xs ->
  exists m, run (Erase et p) (mkV xs k) = Ok p m /\ vec_of m = mkV (del_at p xs) (S k).
Proof.
  intros Hx Hq.
  assert (Hp : p < length xs) by (by apply lookup_lt_Some in Hx).
  assert (Htk : length (take p xs) = p) by (rewrite length_take; lia).
  assert (Hm : Forall (fun x => move_throws et x = false) (drop (S p) xs)).
  { apply Forall_drop. eapply Forall_impl; [exact Hq | intros y (? & ? & ?); done]. }
  destruct (Erase_run et (take p xs) x (drop (S p) xs) k Hm) as (m & Hrun & Hv & _).
  rewrite Htk, take_drop_middle in Hrun by done.
  exists m. split; [done|]. by rewrite Hv.
Qed.

Lemma ins_at_del_at xs p x : xs !! p = Some x -> ins_at p x (del_at p xs) = xs.
Proof.
  intros Hx. assert (Hp : p < length xs) by (by apply lookup_lt_Some in Hx).
  unfold ins_at, del_at.
  rewrite take_app_length' by (rewrite length_take; lia).
  rewrite drop_app_length' by (rewrite length_take; lia).
  by apply take_drop_middle.
Qed.

Lemma length_del_at xs p : p < length xs -> length (del_at p xs) = length xs - 1.
Proof. intros Hp. unfold del_at. rewrite length_app, length_take, length_drop. lia. Qed.

End RoundTrip.

(** ** Capacities along a sequence of [PushBack] calls *)

Section Pushes.

Context {A : Type}.
Context (et : ElemType (A := A)).

Local Abbreviation pushes := (pushes et).

Implicit Types (xs ys : list A).

Lemma pow_fit_le n c : pow_fit n c -> n <= c.
Proof. intros [[-> ->]|(j & -> & ? & ?)]; lia. Qed.

Lemma pow_fit_full n : pow_fit n n -> pow_fit (S n) (grown n).
Proof.
  intros [[-> _]|(j & Hc & H1 & H2)].
  - right. exists 0. rewrite grown_max. simpl. lia.
  - right. exists (S j). rewrite grown_max, Nat.pow_succ_r'. lia.
Qed.

Lemma pow_fit_room n c : n < c -> pow_fit n c -> pow_fit (S n) c.
Proof. intros Hlt [[-> ->]|(j & -> & H1 & H2)]; [lia|]. right. exists j. lia. Qed.

Lemma pushes_run ys xs c :
  pow_fit (length xs) c ->
  Forall (fun y => copy_throws et y = false) ys ->
  Forall (fun x => reloc_throws et x = false) (xs ++ ys) ->
  exists c', pushes ys (mkV xs (c - length xs)) = Some (mkV (xs ++ ys) (c' - length (xs ++ ys))) /\
    pow_fit (length (xs ++ ys)) c'.
Proof.
  induction ys as [|y ys IH] in xs, c |- *; intros Hf Hc Hr.
  - exists c. rewrite app_nil_r. by split.
  - apply Forall_cons in Hc as [Hy Hc]. simpl. unfold PushBack, copy_of, copy_arg. rewrite Hy.
    pose proof (pow_fit_le _ _ Hf) as Hle.
    assert (Hxs : Forall (fun x => reloc_throws et x = false) xs)
      by (by apply Forall_app in Hr as [? _]).
    replace (xs ++ y :: ys) with ((xs ++ [y]) ++ ys) in * by (by rewrite <- app_assoc).
    destruct (Nat.eq_dec c (length xs)) as [Heq|Hne].
    + rewrite Heq, Nat.sub_diag.
      destruct (EmplaceBack_grow_run et xs y Hxs) as (m & -> & Hv & _). rewrite Hv.
      rewrite Heq in Hf. apply pow_fit_full in Hf.
      replace (S (length xs)) with (length (xs ++ [y])) in *
        by (rewrite length_app; simpl; lia).
      by apply IH.
    + replace (c - length xs) with (S (c - length (xs ++ [y])))
        by (rewrite length_app; simpl; lia).
      destruct (EmplaceBack_room_run et xs (c - length (xs ++ [y])) y) as (m & -> & Hv & _).
      rewrite Hv. apply IH; [|done|done].
      rewrite length_app. simpl. rewrite Nat.add_1_r. apply pow_fit_room; [lia|done].
Qed.

End Pushes.

(** ** The representation invariant *)

(** * The claims *)

(** C1: at full capacity, [EmplaceBack] (and [PushBack], which calls it)
    builds the new element in its final slot of the new block before any
    existing element is relocated; when that construction throws, the
    vector keeps its size, capacity and elements, and no element operation
    has run. *)
Theorem C1_emplace_back_strong {A} (et : @ElemType A) :
  (forall v, Size v = Capacity v ->
     exists m, run (EmplaceBack et (Args None)) v = Exn m /\ vec_of m = v /\ m_trace m = []) /\
  (forall v a, Size v = Capacity v -> copy_throws et a = true ->
     exists m, run (PushBack et (Ext a)) v = Exn m /\ vec_of m = v /\ m_trace m = []) /\
  (forall xs a, Forall (fun x => reloc_throws et x = false) xs ->
     exists m, run (EmplaceBack et (Args (Some a))) (mkV xs 0) = Ok (length xs) m /\
       vec_of m = mkV (xs ++ [a]) (grown (length xs) - S (length xs)) /\
       m_trace m = EvConstruct :: (replicate (length xs) (reloc_event et)
                                   ++ replicate (length xs) EvDestroy)).
Proof.
  split; [|split].
  - intros v Hv. eexists. split; [apply EmplaceBack_throw_full, Hv|]. by destruct v.
  - intros v a Hv Ha. unfold PushBack, copy_of, copy_arg. rewrite Ha.
    eexists. split; [apply EmplaceBack_throw_full, Hv|]. by destruct v.
  - intros xs a Hxs. by apply EmplaceBack_grow_run.
Qed.

Lemma C1_witness :
  Size (mkV [1; 2] 0) = Capacity (mkV [1; 2] 0) /\ copy_throws et_ex 99 = true /\
  exists m, run (PushBack et_ex (Ext 99)) (mkV [1; 2] 0) = Exn m /\ vec_of m = mkV [1; 2] 0 /\
            m_trace m = [].
Proof.
  split; [reflexivity|]. split; [reflexivity|].
  apply (proj1 (proj2 (C1_emplace_back_strong et_ex))); reflexivity.
Defined.


(** C2: at full capacity, [EmplaceBack], [PushBack], [Emplace] and [Insert]
    give the vector the capacity [max(1, 2 * old capacity)]; pushing values
    one by one into an empty vector, the capacity after [n >= 1] pushes is
    the least power of two that is at least [n] (1, 2, 4, 4, 8, ...). *)
Theorem C2_growth_policy {A} (et : @ElemType A) :
  (forall xs a, Forall (fun x => reloc_throws et x = false) xs ->
     exists m, run (EmplaceBack et (Args (Some a))) (mkV xs 0) = Ok (length xs) m /\
       Capacity (vec_of m) = Nat.max 1 (2 * Capacity (mkV xs 0))) /\
  (forall xs a, Forall (fun x => reloc_throws et x = false) xs -> copy_throws et a = false ->
     exists m, run (PushBack et (Ext a)) (mkV xs 0) = Ok (length xs) m /\
       Capacity (vec_of m) = Nat.max 1 (2 * Capacity (mkV xs 0))) /\
  (forall xs p a, p <= length xs -> Forall (fun x => reloc_throws et x = false) xs ->
     exists m, run (Emplace et p (Args (Some a))) (mkV xs 0) = Ok p m /\
       Capacity (vec_of m) = Nat.max 1 (2 * Capacity (mkV xs 0))) /\
  (forall xs p a, p <= length xs -> Forall (fun x => reloc_throws et x = false) xs ->
     copy_throws et a = false ->
     exists m, run (Insert et p (Ext a)) (mkV xs 0) = Ok p m /\
       Capacity (vec_of m) = Nat.max 1 (2 * Capacity (mkV xs 0))) /\
  (forall ys, Forall (fun y => copy_throws et y = false /\ reloc_throws et y = false) ys ->
     exists v, pushes et ys empty_vector = Some v /\ Size v = length ys /\
       (ys <> [] -> exists j, Capacity v = 2 ^ j /\ length ys <= 2 ^ j < 2 * length ys)).
Proof.
  assert (Hcap : forall xs a, Capacity (mkV (xs ++ [a]) (grown (length xs) - S (length xs)))
                            = Nat.max 1 (2 * Capacity (A := A) (mkV xs 0))).
  { intros xs a. rewrite !Capacity_mkV, length_app, Nat.add_0_r, <- grown_max.
    pose proof (grown_gt (length xs)). simpl. lia. }
  split; [|split; [|split; [|split]]].
  - intros xs a Hxs. destruct (EmplaceBack_grow_run et xs a Hxs) as (m & Hr & Hv & _).
    exists m. split; [done|]. by rewrite Hv, Hcap.
  - intros xs a Hxs Ha. unfold PushBack, copy_of, copy_arg. rewrite Ha.
    destruct (EmplaceBack_grow_run et xs a Hxs) as (m & Hr & Hv & _).
    exists m. split; [done|]. by rewrite Hv, Hcap.
  - intros xs p a Hp Hxs. destruct (Emplace_grow_run et xs p a Hp Hxs) as (m & Hr & Hv & _).
    exists m. split; [done|]. rewrite Hv, !Capacity_mkV.
    unfold ins_at. rewrite length_app. simpl.
    rewrite length_take, length_drop, !grown_max. lia.
  - intros xs p a Hp Hxs Ha. unfold Insert, copy_of, copy_arg. rewrite Ha.
    destruct (Emplace_grow_run et xs p a Hp Hxs) as (m & Hr & Hv & _).
    exists m. split; [done|]. rewrite Hv, !Capacity_mkV.
    unfold ins_at. rewrite length_app. simpl.
    rewrite length_take, length_drop, !grown_max. lia.
  - intros ys Hys.
    destruct (pushes_run et ys [] 0 (or_introl (conj eq_refl eq_refl)))
      as (c & Hp & Hf).
    + eapply Forall_impl; [exact Hys | intros y []; done].
    + eapply Forall_impl; [exact Hys | intros y []; done].
    + exists (mkV ys (c - length ys)). split; [exact Hp|]. split; [done|].
      intros Hne. simpl in Hf. rewrite Capacity_mkV.
      destruct Hf as [[Hl _]|(j & Hc & Hj)].
      * destruct ys; [done | discriminate].
      * exists j. pose proof (pow_fit_le _ _ (or_intror (ex_intro _ j (conj Hc Hj)))). lia.
Qed.

Lemma C2_witness :
  Forall (fun y => copy_throws et_ex y = false /\ reloc_throws et_ex y = false) [10; 20; 30] /\
  exists v, pushes et_ex [10; 20; 30] empty_vector = Some v /\ Size v = 3 /\
    ([10; 20; 30] <> [] -> exists j, Capacity v = 2 ^ j /\ 3 <= 2 ^ j < 2 * 3).
Proof.
  assert (H : Forall (fun y => copy_throws et_ex y = false /\ reloc_throws et_ex y = false)
                [10; 20; 30]) by (repeat constructor).
  split; [exact H|].
  apply (proj2 (proj2 (proj2 (proj2 (C2_growth_policy et_ex)))) [10; 20; 30] H).
Defined.

(** C3: every relocation ([Reserve], and the growth paths of [EmplaceBack]
    and [Emplace]) moves the elements exactly when the move constructor is
    [noexcept] or [T] is not copy constructible, and copies them otherwise:
    one [reloc_event] per element, then the old elements are destroyed.
    With copies, an exception during the relocation leaves the vector as it
    was (for constructor arguments that do not move from an element of the
    vector: [T(std::move(v[j]))] itself leaves [v[j]] moved-from).  A
    move-only type at [size == capacity == 2]: [EmplaceBack] succeeds, the
    capacity becomes 4 and both old elements are moved. *)
Theorem C3_move_or_copy {A} (et : @ElemType A) :
  (reloc_event et = EvMove <-> nothrow_move et = true \/ copy_constructible et = false) /\
  (forall xs k n, length xs + k < n -> Forall (fun x => reloc_throws et x = false) xs ->
     exists m, run (Reserve et n) (mkV xs k) = Ok tt m /\ vec_of m = mkV xs (n - length xs) /\
       m_trace m = replicate (length xs) (reloc_event et) ++ replicate (length xs) EvDestroy) /\
  (forall xs a, Forall (fun x => reloc_throws et x = false) xs ->
     exists m, run (EmplaceBack et (Args (Some a))) (mkV xs 0) = Ok (length xs) m /\
       vec_of m = mkV (xs ++ [a]) (grown (length xs) - S (length xs)) /\
       m_trace m = EvConstruct :: (replicate (length xs) (reloc_event et)
                                   ++ replicate (length xs) EvDestroy)) /\
  (forall xs p a, p <= length xs -> Forall (fun x => reloc_throws et x = false) xs ->
     exists m, run (Emplace et p (Args (Some a))) (mkV xs 0) = Ok p m /\
       vec_of m = mkV (take p xs ++ a :: drop p xs) (grown (length xs) - S (length xs)) /\
       m_trace m = EvConstruct :: (replicate p (reloc_event et)
                                   ++ replicate (length xs - p) (reloc_event et)
                                   ++ replicate (length xs) EvDestroy)) /\
  (nothrow_move et = false -> copy_constructible et = true ->
     (forall v n, match run (Reserve et n) v with Exn m => vec_of m = v | _ => True end) /\
     (forall v arg, leaves_elems arg = true -> Size v = Capacity v ->
        match run (EmplaceBack et arg) v with Exn m => vec_of m = v | _ => True end) /\
     (forall v p arg, leaves_elems arg = true -> Size v = Capacity v ->
        match run (Emplace et p arg) v with Exn m => vec_of m = v | _ => True end)) /\
  (copy_constructible et = false ->
     forall x0 x1 a, move_throws et x0 = false -> move_throws et x1 = false ->
     exists m, run (EmplaceBack et (Args (Some a))) (mkV [x0; x1] 0) = Ok 2 m /\
       Size (vec_of m) = 3 /\ Capacity (vec_of m) = 4 /\ vec_of m = mkV [x0; x1; a] 1 /\
       m_trace m = [EvConstruct; EvMove; EvMove; EvDestroy; EvDestroy]).
Proof.
  split; [|split; [|split; [|split; [|split]]]].
  - unfold reloc_event, moves.
    destruct (nothrow_move et), (copy_constructible et); simpl; intuition congruence.
  - intros xs k n Hn Hxs. by apply Reserve_grow_run.
  - intros xs a Hxs. by apply EmplaceBack_grow_run.
  - intros xs p a Hp Hxs. destruct (Emplace_grow_run et xs p a Hp Hxs) as (m & Hr & Hv & Ht).
    exists m. split; [exact Hr|]. split; [exact Hv | exact Ht].
  - intros Hn Hc. assert (Hm : moves et = false) by (unfold moves; by rewrite Hn, Hc).
    split; [|split].
    + intros v n. by apply Reserve_copy_exn.
    + intros v arg Ha Hv. by apply EmplaceBack_copy_exn.
    + intros v p arg Ha Hv. by apply Emplace_copy_exn.
  - intros Hc x0 x1 a H0 H1.
    assert (Hm : moves et = true) by (unfold moves; rewrite Hc; apply orb_true_r).
    destruct (EmplaceBack_grow_run et [x0; x1] a) as (m & Hr & Hv & Ht).
    { unfold reloc_throws. rewrite Hm. by repeat constructor. }
    exists m. rewrite Hr, Hv, Ht. unfold reloc_event. rewrite Hm.
    rewrite grown_max. simpl. repeat split.
Qed.

Lemma C3_witness :
  copy_constructible et_move_only = false /\
  exists m, run (EmplaceBack et_move_only (Args (Some 7))) (mkV [5; 6] 0) = Ok 2 m /\
    Size (vec_of m) = 3 /\ Capacity (vec_of m) = 4 /\ vec_of m = mkV [5; 6; 7] 1 /\
    m_trace m = [EvConstruct; EvMove; EvMove; EvDestroy; EvDestroy].
Proof.
  split; [reflexivity|].
  apply (proj2 (proj2 (proj2 (proj2 (proj2 (C3_move_or_copy et_move_only))))) eq_refl 5 6 7 eq_refl eq_refl).
Defined.

(** C4: [Insert(pos, value)] where [value] is an element of the vector
    itself does not put that element's value at [pos]: with spare
    capacity, the elements are shifted before [value] is copied, so the
    copy is taken from the shifted slot.  On [[1; 2; 3]] with capacity 4,
    [Insert(begin(), v[1])] gives [[1; 1; 2; 3]] (not [[2; 1; 2; 3]]) and
    [Insert(begin() + 1, v[2])] gives [[1; 2; 2; 3]] (not [[1; 3; 2; 3]]). *)
Theorem C4_insert_own_element :
  [1; 2; 3] !! 1 = Some 2 /\
  (exists m, run (Insert et_ex 0 (Elem 1)) (mkV [1; 2; 3] 1) = Ok 0 m /\
     vec_of m = mkV [1; 1; 2; 3] 0 /\
     forall k', vec_of m <> mkV (take 0 [1; 2; 3] ++ 2 :: drop 0 [1; 2; 3]) k') /\
  [1; 2; 3] !! 2 = Some 3 /\
  (exists m, run (Insert et_ex 1 (Elem 2)) (mkV [1; 2; 3] 1) = Ok 1 m /\
     vec_of m = mkV [1; 2; 2; 3] 0 /\
     forall k', vec_of m <> mkV (take 1 [1; 2; 3] ++ 3 :: drop 1 [1; 2; 3]) k').
Proof.
  split; [reflexivity|]. split.
  - exists (mkMach [Live 1; Live 1; Live 2; Live 3] 4 (replicate 6 Raw)
                   [EvMove; EvMoveAssign; EvMoveAssign; EvConstruct; EvMoveAssign; EvDestroy]).
    split; [vm_compute; reflexivity|]. split; [vm_compute; reflexivity|].
    intros k' H. apply (f_equal (fun v => data_ v !! 0)) in H. vm_compute in H. congruence.
  - split; [reflexivity|].
    exists (mkMach [Live 1; Live 2; Live 2; Live 3] 4 (replicate 6 Raw)
                   [EvMove; EvMoveAssign; EvConstruct; EvMoveAssign; EvDestroy]).
    split; [vm_compute; reflexivity|]. split; [vm_compute; reflexivity|].
    intros k' H. apply (f_equal (fun v => data_ v !! 1)) in H. vm_compute in H. congruence.
Qed.

(** C5: copy assignment from a vector whose size fits in the capacity
    keeps the block: the capacity is unchanged, the size becomes the
    source's, the common prefix is copy-assigned, and the excess elements
    are destroyed or the missing ones copy-constructed.  Three elements
    onto five elements of capacity 10: size 3, capacity 10, elements 0-2
    are the source's, elements 3 and 4 are destroyed. *)
Theorem C5_copy_assign_fit {A} (et : @ElemType A) :
  (forall xs k ys k', length ys <= Capacity (mkV xs k) ->
     Forall (fun y => copy_throws et y = false) ys ->
     exists m, run (CopyAssign et (SrcOther (mkV ys k'))) (mkV xs k) = Ok tt m /\
       vec_of m = mkV ys (length xs + k - length ys) /\
       Capacity (vec_of m) = Capacity (mkV xs k) /\
       Size (vec_of m) = length ys /\
       m_trace m = replicate (Nat.min (length xs) (length ys)) EvCopyAssign
                   ++ replicate (length xs - length ys) EvDestroy
                   ++ replicate (length ys - length xs) EvCopy) /\
  (forall x0 x1 x2 x3 x4 y0 y1 y2 k',
     Forall (fun y => copy_throws et y = false) [y0; y1; y2] ->
     exists m, run (CopyAssign et (SrcOther (mkV [y0; y1; y2] k'))) (mkV [x0; x1; x2; x3; x4] 5)
               = Ok tt m /\
       Size (vec_of m) = 3 /\ Capacity (vec_of m) = 10 /\
       data_ (vec_of m) = [Live y0; Live y1; Live y2] ++ replicate 7 Raw /\
       m_trace m = [EvCopyAssign; EvCopyAssign; EvCopyAssign; EvDestroy; EvDestroy]).
Proof.
  assert (Hfit : forall xs k ys k', length ys <= Capacity (mkV xs k) ->
     Forall (fun y => copy_throws et y = false) ys ->
     exists m, run (CopyAssign et (SrcOther (mkV ys k'))) (mkV xs k) = Ok tt m /\
       vec_of m = mkV ys (length xs + k - length ys) /\
       Capacity (vec_of m) = Capacity (mkV xs k) /\
       Size (vec_of m) = length ys /\
       m_trace m = replicate (Nat.min (length xs) (length ys)) EvCopyAssign
                   ++ replicate (length xs - length ys) EvDestroy
                   ++ replicate (length ys - length xs) EvCopy).
  { intros xs k ys k' Hc Hy. rewrite Capacity_mkV in Hc.
    destruct (CopyAssign_fit_run et xs k ys k' Hc Hy) as (m & Hr & Hv & Ht).
    exists m. rewrite Hv, !Capacity_mkV, Size_mkV. repeat split; try done. lia. }
  split; [exact Hfit|].
  intros x0 x1 x2 x3 x4 y0 y1 y2 k' Hy.
  destruct (Hfit [x0; x1; x2; x3; x4] 5 [y0; y1; y2] k') as (m & Hr & Hv & Hc & Hs & Ht);
    [rewrite Capacity_mkV; simpl; lia | exact Hy |].
  exists m. rewrite Hr, Hv, Ht, Capacity_mkV. repeat split.
Qed.

Lemma C5_witness :
  Forall (fun y => copy_throws et_ex y = false) [7; 8; 9] /\
  exists m, run (CopyAssign et_ex (SrcOther (mkV [7; 8; 9] 0))) (mkV [1; 2; 3; 4; 5] 5)
            = Ok tt m /\
    Size (vec_of m) = 3 /\ Capacity (vec_of m) = 10 /\
    data_ (vec_of m) = [Live 7; Live 8; Live 9] ++ replicate 7 Raw /\
    m_trace m = [EvCopyAssign; EvCopyAssign; EvCopyAssign; EvDestroy; EvDestroy].
Proof.
  assert (Hy : Forall (fun y => copy_throws et_ex y = false) [7; 8; 9]) by (repeat constructor).
  split; [exact Hy|].
  apply (proj2 (C5_copy_assign_fit et_ex) 1 2 3 4 5 7 8 9 0 Hy).
Defined.

(** C6: [Reserve(n)] with [n <= Capacity()] changes nothing and runs no
    element operation; with [n > Capacity()] the capacity becomes exactly
    [n] and the size and the elements, in order, are kept. *)
Theorem C6_reserve {A} (et : @ElemType A) :
  (forall (v : @Vector A) n, n <= Capacity v -> run (Reserve et n) v = Ok tt (start v) /\ vec_of (start v) = v) /\
  (forall xs k n, Capacity (mkV xs k) < n -> Forall (fun x => reloc_throws et x = false) xs ->
     exists m, run (Reserve et n) (mkV xs k) = Ok tt m /\ vec_of m = mkV xs (n - length xs) /\
       Capacity (vec_of m) = n /\ Size (vec_of m) = Size (mkV xs k)).
Proof.
  split.
  - intros v n Hn. split; [by apply Reserve_noop | by destruct v].
  - intros xs k n Hn Hxs. rewrite Capacity_mkV in Hn.
    destruct (Reserve_grow_run et xs k n Hn Hxs) as (m & Hr & Hv & _).
    exists m. rewrite Hv, Capacity_mkV, !Size_mkV. repeat split; try done. lia.
Qed.

Lemma C6_witness :
  Capacity (mkV [1; 2] 1) < 6 /\ Forall (fun x => reloc_throws et_ex x = false) [1; 2] /\
  exists m, run (Reserve et_ex 6) (mkV [1; 2] 1) = Ok tt m /\ vec_of m = mkV [1; 2] (6 - 2) /\
    Capacity (vec_of m) = 6 /\ Size (vec_of m) = Size (mkV [1; 2] 1).
Proof.
  assert (Hx : Forall (fun x => reloc_throws et_ex x = false) [1; 2]) by (repeat constructor).
  assert (Hc : Capacity (mkV [1; 2] 1) < 6) by (vm_compute; lia).
  split; [exact Hc|]. split; [exact Hx|].
  apply (proj2 (C6_reserve et_ex) [1; 2] 1 6 Hc Hx).
Defined.

(** C7: [Erase] on an empty vector returns its argument and changes
    nothing; at a position [p < Size()] it move-assigns each later element
    one slot to the left, destroys the last slot and decreases the size by
    one. *)
Theorem C7_erase {A} (et : @ElemType A) :
  (forall (v : @Vector A) p, Size v = 0 -> run (Erase et p) v = Ok p (start v) /\ vec_of (start v) = v) /\
  (forall pre x ys k, Forall (fun y => move_throws et y = false) ys ->
     exists m, run (Erase et (length pre)) (mkV (pre ++ x :: ys) k) = Ok (length pre) m /\
       vec_of m = mkV (pre ++ ys) (S k) /\
       Size (vec_of m) = Size (mkV (pre ++ x :: ys) k) - 1 /\
       m_trace m = replicate (length ys) EvMoveAssign ++ [EvDestroy]).
Proof.
  split.
  - intros v p Hv. split; [by apply Erase_empty | by destruct v].
  - intros pre x ys k Hys. destruct (Erase_run et pre x ys k Hys) as (m & Hr & Hv & Ht).
    exists m. rewrite Hv, !Size_mkV, !length_app. simpl. repeat split; try done. lia.
Qed.

Lemma C7_witness :
  Size (mkV (A := nat) [] 3) = 0 /\
  run (Erase et_ex 4) (mkV [] 3) = Ok 4 (start (mkV [] 3)) /\
  vec_of (start (mkV (A := nat) [] 3)) = mkV [] 3.
Proof.
  split; [reflexivity|]. apply (proj1 (C7_erase et_ex) (mkV [] 3) 4). reflexivity.
Defined.

(** C8 (does not hold): [Insert] in the middle below capacity first
    move-constructs the last element into slot [size_], then builds the
    temporary [T(args...)].  When that constructor throws, [size_] is not
    incremented, so slot [size_] holds an object that is outside [0, size_)
    and is never destroyed.  The growth path, which constructs the new
    element first, keeps the representation valid under the same throw. *)
Theorem C8_insert_throw_breaks_invariant :
  valid (mkV [1; 2] 2) = true /\
  (exists m, run (Insert et_ex 0 (Ext 99)) (mkV [1; 2] 2) = Exn m /\
     vec_of m = mkVector [Live 0; Live 1; Live 2; Raw] 2 /\ valid (vec_of m) = false) /\
  (exists m, run (Insert et_ex 0 (Ext 99)) (mkV [1; 2] 0) = Exn m /\
     vec_of m = mkV [1; 2] 0 /\ valid (vec_of m) = true).
Proof.
  split; [reflexivity|]. split.
  - eexists. split; [reflexivity|]. split; reflexivity.
  - eexists. split; [reflexivity|]. split; reflexivity.
Qed.

Lemma cap_kept_of_wp {A X} (p : @M A X) :
  (forall c m, c <= length (m_data m) -> wp p (fun _ => cap_at_least c) (cap_at_least c) m) ->
  forall v, cap_kept p v.
Proof.
  intros H v. specialize (H (Capacity v) (start v) (Nat.le_refl _)).
  unfold cap_kept, run, wp, cap_at_least in *. by destruct (p (start v)).
Qed.

(** C9: [Resize(n)] with [n <= Size()] destroys the elements [n, Size())
    and keeps the capacity; no member function other than the swaps makes
    the capacity smaller, whether it returns or throws. *)
Theorem C9_capacity_never_shrinks {A} (et : @ElemType A) :
  (forall xs k n, n <= length xs ->
     exists m, run (Resize et n) (mkV xs k) = Ok tt m /\
       vec_of m = mkV (take n xs) (length xs - n + k) /\
       Capacity (vec_of m) = Capacity (mkV xs k) /\
       m_trace m = replicate (length xs - n) EvDestroy) /\
  (forall v n, cap_kept (Reserve et n) v) /\
  (forall v n, cap_kept (Resize et n) v) /\
  (forall v arg, cap_kept (EmplaceBack et arg) v) /\
  (forall v a, cap_kept (PushBack et a) v) /\
  (forall v a, cap_kept (PushBackMove et a) v) /\
  (forall v, cap_kept (PopBack (A := A)) v) /\
  (forall v p arg, cap_kept (Emplace et p arg) v) /\
  (forall v p a, cap_kept (Insert et p a) v) /\
  (forall v p a, cap_kept (InsertMove et p a) v) /\
  (forall v p, cap_kept (Erase et p) v) /\
  (forall v s, cap_kept (CopyAssign et s) v).
Proof.
  split.
  { intros xs k n Hn. destruct (Resize_down_run et xs k n Hn) as (m & Hr & Hv & Ht).
    exists m. rewrite Hv, !Capacity_mkV, length_take. repeat split; try done. lia. }
  repeat split; intros; apply cap_kept_of_wp; intros.
  - by apply Reserve_cap.
  - by apply Resize_cap.
  - by apply EmplaceBack_cap.
  - by apply EmplaceBack_cap.
  - by apply EmplaceBack_cap.
  - by apply PopBack_cap.
  - by apply Emplace_cap.
  - by apply Emplace_cap.
  - by apply Emplace_cap.
  - by apply Erase_cap.
  - by apply CopyAssign_cap.
Qed.

Lemma C9_witness :
  2 <= length [1; 2; 3] /\
  exists m, run (Resize et_ex 2) (mkV [1; 2; 3] 1) = Ok tt m /\
    vec_of m = mkV (take 2 [1; 2; 3]) (length [1; 2; 3] - 2 + 1) /\
    Capacity (vec_of m) = Capacity (mkV [1; 2; 3] 1) /\
    m_trace m = replicate (length [1; 2; 3] - 2) EvDestroy.
Proof.
  split; [simpl; lia|].
  apply (proj1 (C9_capacity_never_shrinks et_ex) [1; 2; 3] 1 2). simpl; lia.
Defined.

(** C10: [v = v] leaves the vector as it was (size, capacity, elements),
    whether the element copies succeed or one of them throws. *)
Theorem C10_self_copy_assign {A} (et : @ElemType A) :
  forall xs k,
    match run (CopyAssign et SrcSelf) (mkV xs k) with
    | Ok _ m | Exn m => vec_of m = mkV xs k
    | UB => False
    end.
Proof. intros xs k. apply CopyAssign_self_run. Qed.

(** * Further properties of the member functions *)

Section MoreRuns.

Context {A : Type}.
Context (et : ElemType (A := A)).

Implicit Types (m : @Mach A) (xs ys : list A).

Lemma lookup_map_Live xs i : (map Live xs) !! i = Live <$> xs !! i.
Proof. induction xs as [|x xs IH] in i |- *; destruct i; simpl; auto. Qed.

Lemma map_Live_replicate n (a : A) : map Live (replicate n a) = replicate n (Live a).
Proof. induction n; simpl; congruence. Qed.

Lemma VectorSized_run n :
  (forall k', default_throws et k' = false) ->
  run (VectorSized et n) empty_vector
  = Ok tt (mkMach (map Live (replicate n (default_value et))) n []
                  (replicate n EvConstruct)).
Proof.
  intros Hd. unfold run, VectorSized, empty_vector, start. steps.
  unfold uninitialized_value_construct_n.
  rewrite (uconstruct_at et (default_value et) BData 0 n [] (replicate n Raw) [])
    by (simpl; rewrite ?app_nil_r, ?length_replicate; done).
  run_simpl. rewrite app_nil_r. unfold tr_add; simpl. f_equal.
  by rewrite map_Live_replicate.
Qed.

(** When the [j]-th [T()] throws, the [j] objects already built are
    destroyed: every slot of the block is raw again. *)
Lemma VectorSized_throw n j :
  (forall t, t < j -> default_throws et t = false) -> default_throws et j = true -> j < n ->
  run (VectorSized et n) empty_vector
  = Exn (mkMach (replicate n Raw) n [] (replicate j EvConstruct ++ replicate j EvDestroy)).
Proof.
  intros Hok Hj Hn. unfold run, VectorSized, empty_vector, start. steps.
  unfold uninitialized_value_construct_n.
  rewrite (uconstruct_go_throw et (default_value et) BData 0 0 n j [] []) by
    (cbn [get_buf put_buf m_data]; rewrite ?app_nil_r; done).
  unfold tr_add. cbn [put_buf m_data m_size m_new m_trace app Nat.add].
  by rewrite app_nil_r.
Qed.

Lemma VectorCopy_run ys k' :
  Forall (fun y => copy_throws et y = false) ys ->
  run (VectorCopy et (mkV ys k')) empty_vector
  = Ok tt (mkMach (map Live ys) (length ys) [] (replicate (length ys) EvCopy)).
Proof.
  intros Hth. unfold run, VectorCopy, empty_vector, start. steps.
  change (size_ (mkV ys k')) with (length ys).
  rewrite (ucopy_at et (SExt (data_ (mkV ys k'))) 0 BData 0 ys [] (replicate k' Raw)
             [] (replicate (length ys) Raw) [])
    by (simpl; rewrite ?app_nil_r, ?length_replicate; try done; discriminate).
  run_simpl. by rewrite app_nil_r.
Qed.

(** [std::uninitialized_copy_n] from another vector's block: it either
    copies the whole range, or, when a copy throws, destroys again the
    objects it has constructed. *)
Lemma ucopy_go_outcome b i r j k xs zs spre spost pre post m :
  b = spre ++ map Live xs ++ spost -> length spre = i + k ->
  get_buf r m = pre ++ map Live zs ++ replicate (length xs) Raw ++ post ->
  length pre = j -> length zs = k ->
  match ucopy_go et (SExt b) i r j k (length xs) m with
  | Exn m' => get_buf r m' = pre ++ replicate (k + length xs) Raw ++ post /\ m_size m' = m_size m
  | Ok _ m' => get_buf r m' = pre ++ map Live (zs ++ xs) ++ post /\ m_size m' = m_size m
  | UB => False
  end.
Proof.
  intros ->.
  induction xs as [|x xs IH] in k, zs, spre, m |- *; intros Hs Hd Hj Hk;
    cbn [ucopy_go length map] in *.
  { simpl. by rewrite app_nil_r. }
  rewrite bind_run. unfold on_exn, copy_construct.
  rewrite bind_run, <- Hs, (read_mid (SExt _) spre x (map Live xs ++ spost) m) by done.
  destruct (copy_throws et x) eqn:Hx; cbn [throw].
  - rewrite (destroy_n_at r j k pre zs (Raw :: replicate (length xs) Raw ++ post))
      by (simpl in Hd; done).
    autorewrite with mach. split; [|done].
    f_equal. rewrite (replicate_add k (S (length xs))), <- app_assoc. reflexivity.
  - rewrite (construct_at r (j + k) (pre ++ map Live zs) Raw (replicate (length xs) Raw ++ post))
      by (rewrite ?Hd, <- ?app_assoc, ?length_app, ?length_map; simpl; try done; lia).
    replace (S k) with (length (zs ++ [x])) by (rewrite length_app; simpl; lia).
    set (m1 := tr_add (put_buf r ((pre ++ map Live zs) ++ Live x :: replicate (length xs) Raw ++ post) m) [EvCopy]).
    assert (Hst : length (spre ++ [Live x]) = i + length (zs ++ [x]))
      by (rewrite !length_app; simpl; lia).
    assert (Hb : get_buf r m1 = pre ++ map Live (zs ++ [x]) ++ replicate (length xs) Raw ++ post)
      by (unfold m1; autorewrite with mach; rewrite map_app, <- !app_assoc; reflexivity).
    assert (Hm1 : m_size m1 = m_size m) by (unfold m1; autorewrite with mach; done).
    pose proof (IH (length (zs ++ [x])) (zs ++ [x]) (spre ++ [Live x]) m1 Hst Hb Hj eq_refl) as IH'.
    replace (spre ++ (Live x :: map Live xs) ++ spost)
      with ((spre ++ [Live x]) ++ map Live xs ++ spost) by (rewrite <- app_assoc; reflexivity).
    destruct (ucopy_go et _ i r j _ (length xs) m1); try done;
      destruct IH' as [IH' Hsz]; (split; [|by rewrite Hsz]).
    { rewrite IH', <- app_assoc. reflexivity. }
    rewrite IH', length_app. simpl. by replace (length zs + 1 + length xs) with (k + S (length xs)) by lia.
Qed.

(** The copy constructor: it either copies all the elements of [other]
    into a block of exactly [other.size_] slots, or a copy throws and no
    object is left in the block. *)
Lemma VectorCopy_outcome ys k' :
  match run (VectorCopy et (mkV ys k')) empty_vector with
  | Ok _ m => vec_of m = mkV ys 0
  | Exn m => m_data m = replicate (length ys) Raw
  | UB => False
  end.
Proof.
  unfold run, VectorCopy, empty_vector, start. steps.
  change (size_ (mkV ys k')) with (length ys). unfold uninitialized_copy_n.
  pose proof (ucopy_go_outcome (data_ (mkV ys k')) 0 BData 0 0 ys [] [] (replicate k' Raw) [] []
                (mkMach (replicate (length ys) Raw) (length ys) [] [])) as H.
  cbn [get_buf m_data m_size app map length] in H.
  rewrite app_nil_r in H. specialize (H eq_refl eq_refl eq_refl eq_refl eq_refl).
  destruct (ucopy_go et _ 0 BData 0 0 (length ys) _) as [[] m|m|]; [| |done];
    destruct H as [H1 H2].
  - unfold vec_of, mkV. rewrite H1, H2, !app_nil_r. reflexivity.
  - by rewrite H1, app_nil_r.
Qed.

Lemma PopBack_run xs x k :
  run PopBack (mkV (xs ++ [x]) k)
  = Ok tt (mkMach (map Live xs ++ Raw :: replicate k Raw) (length xs) [] [EvDestroy]).
Proof.
  unfold run, PopBack. rewrite start_mkV. steps.
  rewrite length_app, Nat.add_1_r. cbn [Nat.eqb]. steps.
  replace (S (length xs) - 1) with (length xs) by lia.
  rewrite (destroy_at BData (length xs) (map Live xs) x (replicate k Raw))
    by (simpl; rewrite ?map_app, <- ?app_assoc, ?length_map; done).
  reflexivity.
Qed.

Lemma PopBack_empty (v : @Vector A) : Size v = 0 -> run PopBack v = UB.
Proof. destruct v as [d s]. unfold Size; simpl. intros ->. reflexivity. Qed.

Lemma Destructor_run xs k :
  run Destructor (mkV xs k)
  = Ok tt (mkMach (replicate (length xs + k) Raw) (length xs) [] (replicate (length xs) EvDestroy)).
Proof.
  unfold run, Destructor. rewrite start_mkV. steps.
  rewrite (destroy_n_at BData 0 (length xs) [] xs (replicate k Raw)) by done.
  run_simpl. by rewrite replicate_add.
Qed.

Lemma Subscript_run xs k i :
  run (Subscript i) (mkV xs k)
  = match xs !! i with Some x => Ok x (start (mkV xs k)) | None => UB end.
Proof.
  unfold run, Subscript. rewrite start_mkV. steps.
  destruct (Nat.ltb_spec i (length xs)) as [Hi|Hi].
  - destruct (lookup_lt_is_Some_2 xs i Hi) as [x Hx]. rewrite Hx.
    unfold read. cbn [src_buf get_buf m_data].
    rewrite lookup_app_l by (rewrite length_map; done).
    by rewrite lookup_map_Live, Hx.
  - by rewrite lookup_ge_None_2 by done.
Qed.

Lemma EmplaceBack_exn_any (v : @Vector A) :
  exists m, run (EmplaceBack et (Args None)) v = Exn m /\ vec_of m = v /\ m_trace m = [].
Proof.
  destruct v as [d s]. unfold run, EmplaceBack, start. steps.
  cbn [size_ data_]. destruct (s =? length d); eexists; (split; [reflexivity|]); split; reflexivity.
Qed.

(** A construction in [data_] neither reads nor writes [new_data]. *)
Lemma construct_arg_data_indep i arg d sz nw b tr :
  construct_arg et BData i arg (mkMach d sz b tr)
  = match construct_arg et BData i arg (mkMach d sz nw tr) with
    | Ok x m' => Ok x (mkMach (m_data m') (m_size m') b (m_trace m'))
    | Exn m' => Exn (mkMach (m_data m') (m_size m') b (m_trace m'))
    | UB => UB
    end.
Proof.
  destruct arg as [[a|]|j|j];
    cbv [construct_arg make_arg mbind M_bind bind ret throw construct set_slot emit
         read get_buf put_buf src_buf]; cbn [m_data m_size m_new m_trace].
  - destruct (i <? length d); reflexivity.
  - reflexivity.
  - destruct (d !! j) as [[|x]|]; cbn [m_data m_size m_new m_trace]; try reflexivity.
    destruct (copy_throws et x); cbn [m_data m_size m_new m_trace]; [reflexivity|].
    destruct (i <? length d); reflexivity.
  - destruct (d !! j) as [[|x]|]; cbn [m_data m_size m_new m_trace]; try reflexivity.
    destruct (move_throws et x); cbn [m_data m_size m_new m_trace]; [reflexivity|].
    destruct (j <? length d); cbn [m_data m_size m_new m_trace]; [|reflexivity].
    rewrite length_insert. destruct (i <? length d); reflexivity.
Qed.

Lemma Emplace_end_same (v : @Vector A) arg :
  observe (run (Emplace et (Size v) arg) v) = observe (run (EmplaceBack et arg) v).
Proof.
  destruct v as [d s]. unfold run, Emplace, EmplaceBack, start, Size. cbn [size_ data_].
  steps. rewrite Nat.ltb_irrefl. steps.
  destruct (s =? length d) eqn:E; steps.
  - rewrite Nat.sub_diag.
    assert (H0 : MoveOrCopy et s 0 (s + 1) = ret tt)
      by (unfold MoveOrCopy; destruct (_ || _); reflexivity).
    rewrite H0.
    destruct (construct_arg et BNew s arg _) as [[] m'|m'|]; try reflexivity.
  - rewrite Nat.eqb_refl, bind_run, (construct_arg_data_indep s arg d s [] _ []).
    destruct (construct_arg et BData s arg _) as [[] m'|m'|]; [|reflexivity|reflexivity].
    steps. reflexivity.
Qed.

Lemma Erase_last (v : @Vector A) :
  0 < Size v ->
  run (Erase et (Size v - 1)) v
  = match run PopBack v with Ok _ m => Ok (Size v - 1) m | Exn m => Exn m | UB => UB end.
Proof.
  destruct v as [d s]. unfold Size; cbn [size_]. intros Hs.
  unfold run, Erase, start. steps.
  cbn [size_ data_].
  rewrite (proj2 (Nat.eqb_neq s 0)) by lia.
  rewrite (proj2 (Nat.leb_gt s (s - 1))) by lia.
  replace (s - S (s - 1)) with 0 by lia. cbn [move_fwd]. steps.
  by destruct (PopBack _).
Qed.

Lemma CopyAssign_grow_run xs k ys k' :
  length xs + k < length ys ->
  Forall (fun y => copy_throws et y = false) ys ->
  run (CopyAssign et (SrcOther (mkV ys k'))) (mkV xs k)
  = Ok tt (mkMach (map Live ys) (length ys) (replicate (length xs + k) Raw)
                  (replicate (length ys) EvCopy ++ replicate (length xs) EvDestroy)).
Proof.
  intros Hlt Hth. unfold run, CopyAssign. rewrite start_mkV. steps.
  change (size_ (mkV ys k')) with (length ys).
  rewrite length_app, length_map, length_replicate.
  rewrite (proj2 (Nat.ltb_lt _ _) Hlt). steps.
  rewrite (ucopy_at et (SExt (data_ (mkV ys k'))) 0 BNew 0 ys [] (replicate k' Raw)
             [] (replicate (length ys) Raw) [])
    by (simpl; rewrite ?app_nil_r, ?length_replicate; try done; discriminate).
  steps. rewrite app_nil_r.
  rewrite (destroy_n_at BNew 0 (length xs) [] xs (replicate k Raw)) by done.
  steps. by rewrite replicate_add.
Qed.

Lemma CopyAssign_grow_exn (v w : @Vector A) :
  Capacity v < Size w ->
  match run (CopyAssign et (SrcOther w)) v with Exn m => vec_of m = v | _ => True end.
Proof.
  destruct v as [d s]. unfold Capacity, Size; cbn [data_ size_]. intros Hlt.
  unfold run, CopyAssign, start. steps.
  cbn [size_ data_ src_size].
  rewrite (proj2 (Nat.ltb_lt _ _) Hlt). steps.
  unfold uninitialized_copy_n.
  pose proof (keeps_ucopy_go_new et (SExt (data_ w)) 0 0 0 (size_ w)
                (mkMach d s (replicate (size_ w) Raw) [])) as Hk.
  unfold wp in Hk.
  destruct (ucopy_go et _ 0 BNew 0 0 (size_ w) _) as [[] m1|m1|]; [|exact Hk|done].
  steps.
  pose proof (nothrow_destroy_n BNew 0 s
                (mkMach (m_new m1) (size_ w) (m_data m1) (m_trace m1))) as Hn.
  destruct (destroy_n BNew 0 s _); done.
Qed.

(** [PushBack] of values into the spare capacity: no reallocation. *)
Lemma pushes_room ys xs k :
  length ys <= k ->
  Forall (fun y => copy_throws et y = false) ys ->
  pushes et ys (mkV xs k) = Some (mkV (xs ++ ys) (k - length ys)).
Proof.
  induction ys as [|y ys IH] in xs, k |- *; intros Hk Hth.
  - simpl. by rewrite app_nil_r, Nat.sub_0_r.
  - inversion Hth as [|? ? Hy Hth']; subst. simpl in Hk.
    destruct k as [|k]; [lia|].
    destruct (EmplaceBack_room_run et xs k y) as (m & Hr & Hv & _).
    cbn [pushes]. unfold PushBack, copy_of, copy_arg. rewrite Hy, Hr, Hv, IH by (done || lia).
    by rewrite <- app_assoc.
Qed.

Lemma Resize_up_run xs k n :
  (forall k', default_throws et k' = false) -> length xs < n ->
  Forall (fun x => reloc_throws et x = false) xs ->
  exists m, run (Resize et n) (mkV xs k) = Ok tt m /\
    vec_of m = mkV (xs ++ replicate (n - length xs) (default_init et))
                   (Nat.max n (length xs + k) - n) /\
    m_trace m = (if length xs + k <? n
                 then replicate (length xs) (reloc_event et) ++ replicate (length xs) EvDestroy
                 else []) ++ replicate (n - length xs) EvConstruct.
Proof.
  intros Hd Hn Hth. unfold run, Resize. rewrite start_mkV. steps.
  rewrite (proj2 (Nat.ltb_lt _ _) Hn). steps.
  rewrite length_app, length_map, length_replicate.
  destruct (Nat.ltb_spec (length xs + k) n) as [Hc|Hc].
  - destruct (Reserve_grow_run et xs k n Hc Hth) as (m1 & Hr & Hv & Ht).
    unfold run in Hr. rewrite start_mkV in Hr. rewrite Hr.
    destruct m1 as [d1 s1 n1 t1]. unfold vec_of, mkV in Hv. cbn in Hv, Ht.
    injection Hv as -> ->. steps.
    unfold uninitialized_default_construct_n.
    rewrite (uconstruct_at et (default_init et) BData (length xs) (n - length xs) (map Live xs)
               (replicate (n - length xs) Raw) [])
      by (simpl; rewrite ?app_nil_r, ?length_map, ?length_replicate; done).
    steps. eexists; split; [reflexivity|]. split.
    + unfold vec_of, mkV. cbn [m_data m_size]. rewrite map_app, length_app, length_replicate.
      rewrite app_nil_r, map_Live_replicate, <- app_assoc.
      replace (Nat.max n (length xs + k) - n) with 0 by lia. simpl.
      rewrite app_nil_r. f_equal. lia.
    + simpl. by rewrite Ht.
  - steps. cbv [ret]. steps.
    unfold uninitialized_default_construct_n.
    rewrite (uconstruct_at et (default_init et) BData (length xs) (n - length xs) (map Live xs)
               (replicate (n - length xs) Raw) (replicate (length xs + k - n) Raw)).
    2: done.
    2: { simpl. f_equal. rewrite <- replicate_add. f_equal. lia. }
    2: by rewrite length_map.
    2: by rewrite length_replicate.
    steps. eexists; split; [reflexivity|]. split.
    + unfold vec_of, mkV. cbn [m_data m_size]. rewrite map_app, length_app, length_replicate.
      rewrite map_Live_replicate, <- app_assoc. run_simpl. f_equal; [do 3 f_equal; lia | lia].
    + reflexivity.
Qed.

(** The [j]-th default construction of [Resize] throws: the objects it
    built are destroyed and the size is left unchanged. *)
Lemma Resize_up_throw xs k n j :
  (forall t, t < j -> default_throws et t = false) -> default_throws et j = true ->
  length xs + j < n ->
  Forall (fun x => reloc_throws et x = false) xs ->
  exists m, run (Resize et n) (mkV xs k) = Exn m /\
    vec_of m = mkV xs (Nat.max n (length xs + k) - length xs) /\
    m_trace m = (if length xs + k <? n
                 then replicate (length xs) (reloc_event et) ++ replicate (length xs) EvDestroy
                 else []) ++ replicate j EvConstruct ++ replicate j EvDestroy.
Proof.
  intros Hok Hj Hn Hth. unfold run, Resize. rewrite start_mkV. steps.
  rewrite (proj2 (Nat.ltb_lt (length xs) n)) by lia. steps.
  rewrite length_app, length_map, length_replicate.
  unfold uninitialized_default_construct_n.
  destruct (Nat.ltb_spec (length xs + k) n) as [Hc|Hc].
  - destruct (Reserve_grow_run et xs k n Hc Hth) as (m1 & Hr & Hv & Ht).
    unfold run in Hr. rewrite start_mkV in Hr. rewrite Hr.
    destruct m1 as [d1 s1 n1 t1]. unfold vec_of, mkV in Hv. cbn in Hv, Ht.
    injection Hv as -> ->. steps.
    rewrite (uconstruct_go_throw et (default_init et) BData (length xs) 0 (n - length xs) j
               (map Live xs) []).
    2: { intros t Ht'. apply Hok. lia. }
    2: exact Hj.
    2: lia.
    2: { cbn [get_buf m_data replicate map app]. by rewrite app_nil_r. }
    2: by rewrite length_map.
    eexists; split; [reflexivity|]. split.
    + unfold vec_of, mkV, tr_add. cbn [m_data m_size m_new m_trace put_buf].
      rewrite app_nil_r.
      replace (0 + (n - length xs)) with (Nat.max n (length xs + k) - length xs) by lia.
      reflexivity.
    + unfold tr_add. cbn [m_trace put_buf]. rewrite Ht. reflexivity.
  - steps. cbv [ret]. steps.
    rewrite (uconstruct_go_throw et (default_init et) BData (length xs) 0 (n - length xs) j
               (map Live xs) (replicate (length xs + k - n) Raw)).
    2: { intros t Ht'. apply Hok. lia. }
    2: exact Hj.
    2: lia.
    2: { cbn [get_buf m_data replicate map app]. f_equal. rewrite <- replicate_add. f_equal. lia. }
    2: by rewrite length_map.
    eexists; split; [reflexivity|]. split.
    + unfold vec_of, mkV, tr_add. cbn [m_data m_size m_new m_trace put_buf].
      rewrite <- replicate_add.
      replace (0 + (n - length xs) + (length xs + k - n))
        with (Nat.max n (length xs + k) - length xs) by lia.
      reflexivity.
    + reflexivity.
Qed.

End MoreRuns.

(** ** Properties of the remaining member functions *)

(** [Vector(size)]: when no [T()] throws, a block of exactly [size]
    slots, each holding a value-initialised [T()], one construction per
    element; when the [j]-th [T()] throws, the [j] objects already built
    are destroyed and every slot of the block is raw again. *)
Theorem X1_vector_sized {A} (et : @ElemType A) :
  ((forall k, default_throws et k = false) ->
   forall n, exists m, run (VectorSized et n) empty_vector = Ok tt m /\
     vec_of m = mkV (replicate n (default_value et)) 0 /\
     Size (vec_of m) = n /\ Capacity (vec_of m) = n /\
     m_trace m = replicate n EvConstruct) /\
  (forall n j, (forall t, t < j -> default_throws et t = false) ->
     default_throws et j = true -> j < n ->
     exists m, run (VectorSized et n) empty_vector = Exn m /\
       m_data m = replicate n Raw /\
       m_trace m = replicate j EvConstruct ++ replicate j EvDestroy).
Proof.
  split.
  - intros Hd n. rewrite (VectorSized_run et n Hd). eexists; split; [reflexivity|].
    unfold vec_of, mkV, Size, Capacity. cbn [data_ size_ m_data m_size m_trace].
    rewrite app_nil_r, length_replicate, length_map, length_replicate. done.
  - intros n j Hok Hj Hn. rewrite (VectorSized_throw et n j Hok Hj Hn).
    eexists; split; [reflexivity|]. done.
Qed.

Lemma X1_witness :
  (exists m, run (VectorSized et_ex 2) empty_vector = Ok tt m /\
     vec_of m = mkV (replicate 2 (default_value et_ex)) 0 /\
     Size (vec_of m) = 2 /\ Capacity (vec_of m) = 2 /\
     m_trace m = replicate 2 EvConstruct) /\
  (exists m, run (VectorSized et_ctor_throws 3) empty_vector = Exn m /\
     m_data m = replicate 3 Raw /\
     m_trace m = replicate 1 EvConstruct ++ replicate 1 EvDestroy).
Proof.
  split.
  - apply (proj1 (X1_vector_sized et_ex)). intros k. reflexivity.
  - apply (proj2 (X1_vector_sized et_ctor_throws) 3 1).
    + intros t Ht. destruct t; [reflexivity | lia].
    + reflexivity.
    + lia.
Defined.

(** [Vector(const Vector& other)]: either every element of [other] is
    copied, into a block whose capacity is [other.Size()] (not
    [other.Capacity()]), or a copy throws and the objects already copied
    are destroyed, so no object is left in the block. *)
Theorem X2_copy_constructor {A} (et : @ElemType A) :
  forall (ys : list A) k',
    match run (VectorCopy et (mkV ys k')) empty_vector with
    | Ok _ m => vec_of m = mkV ys 0 /\ Capacity (vec_of m) = Size (mkV ys k')
    | Exn m => m_data m = replicate (length ys) Raw
    | UB => False
    end.
Proof.
  intros ys k'. pose proof (VectorCopy_outcome et ys k') as H.
  destruct (run (VectorCopy et (mkV ys k')) empty_vector); try done.
  split; [done|]. by rewrite H, Capacity_mkV, Size_mkV, Nat.add_0_r.
Qed.

(** [~Vector()]: destroys exactly the [Size()] live elements, front to
    back, and leaves every slot of the block raw. *)
Theorem X3_destructor {A} :
  forall (xs : list A) k, exists m, run Destructor (mkV xs k) = Ok tt m /\
    m_data m = replicate (Capacity (mkV xs k)) Raw /\
    m_trace m = replicate (Size (mkV xs k)) EvDestroy.
Proof.
  intros xs k. rewrite Destructor_run, Capacity_mkV, Size_mkV.
  eexists; split; [reflexivity|]. done.
Qed.

(** [operator[](i)]: for [i < Size()] it gives the element at position
    [i] and changes nothing; for [i >= Size()] the [assert] fails. *)
Theorem X4_subscript {A} :
  forall (xs : list A) k i,
    run (Subscript i) (mkV xs k)
    = match xs !! i with Some x => Ok x (start (mkV xs k)) | None => UB end.
Proof. intros xs k i. apply Subscript_run. Qed.

(** After [PushBack(a)] (no copy or relocation throwing), [operator[]]
    sees the old elements at their positions and [a] at the old [Size()],
    which is also the index [EmplaceBack] returns. *)
Theorem X5_push_back_subscript {A} (et : @ElemType A) :
  forall xs k a, copy_throws et a = false ->
    Forall (fun x => reloc_throws et x = false) xs ->
    exists m, run (PushBack et (Ext a)) (mkV xs k) = Ok (length xs) m /\
      forall i, run (Subscript i) (vec_of m)
                = match (xs ++ [a]) !! i with
                  | Some x => Ok x (start (vec_of m))
                  | None => UB
                  end.
Proof.
  intros xs k a Ha Hth. unfold PushBack, copy_of, copy_arg. rewrite Ha.
  destruct k as [|k].
  - destruct (EmplaceBack_grow_run et xs a Hth) as (m & Hr & Hv & _).
    exists m. split; [done|]. intros i. rewrite Hv. apply Subscript_run.
  - destruct (EmplaceBack_room_run et xs k a) as (m & Hr & Hv & _).
    exists m. split; [done|]. intros i. rewrite Hv. apply Subscript_run.
Qed.

Lemma X5_witness :
  copy_throws et_ex 7 = false /\ Forall (fun x => reloc_throws et_ex x = false) [1; 2] /\
  exists m, run (PushBack et_ex (Ext 7)) (mkV [1; 2] 0) = Ok (length [1; 2]) m /\
    forall i, run (Subscript i) (vec_of m)
              = match ([1; 2] ++ [7]) !! i with
                | Some x => Ok x (start (vec_of m))
                | None => UB
                end.
Proof.
  split; [reflexivity|]. split; [repeat constructor|].
  apply (X5_push_back_subscript et_ex [1; 2] 0 7); [reflexivity | repeat constructor].
Defined.

(** [Insert(pos, value)] of a value that is not an element of the vector
    returns the index of [pos], and [operator[]] at that index gives
    [value] (no element operation throwing). *)
Theorem X6_insert_subscript {A} (et : @ElemType A) :
  forall xs k p a, p <= length xs -> quiet et a -> Forall (quiet et) xs ->
    exists m, run (Insert et p (Ext a)) (mkV xs k) = Ok p m /\
      run (Subscript p) (vec_of m) = Ok a (start (vec_of m)).
Proof.
  intros xs k p a Hp Ha Hq.
  destruct (Insert_run et xs k p a Hp Ha Hq) as (k' & m & Hr & Hv).
  exists m. split; [done|]. rewrite Hv, Subscript_run. unfold ins_at.
  rewrite list_lookup_middle; [done|]. rewrite length_take. lia.
Qed.

Lemma X6_witness :
  1 <= length [1; 2] /\ quiet et_ex 7 /\ Forall (quiet et_ex) [1; 2] /\
  exists m, run (Insert et_ex 1 (Ext 7)) (mkV [1; 2] 1) = Ok 1 m /\
    run (Subscript 1) (vec_of m) = Ok 7 (start (vec_of m)).
Proof.
  assert (Hq : forall x, x <> 99 -> quiet et_ex x).
  { intros x Hx. unfold quiet, reloc_throws, moves. cbn.
    apply Nat.eqb_neq in Hx. rewrite Hx. done. }
  split; [vm_compute; lia|]. split; [apply Hq; lia|].
  split; [repeat constructor; apply Hq; lia|].
  apply (X6_insert_subscript et_ex [1; 2] 1 1 7); [vm_compute; lia | apply Hq; lia |].
  repeat constructor; apply Hq; lia.
Defined.

(** [PopBack()]: destroys the last element in place and keeps the block;
    on an empty vector the [assert] fails. *)
Theorem X7_pop_back {A} :
  (forall (xs : list A) x k, exists m, run PopBack (mkV (xs ++ [x]) k) = Ok tt m /\
     vec_of m = mkV xs (S k) /\ m_trace m = [EvDestroy]) /\
  (forall v : @Vector A, Size v = 0 -> run PopBack v = UB).
Proof.
  split.
  - intros xs x k. rewrite PopBack_run. eexists; split; [reflexivity|]. done.
  - apply PopBack_empty.
Qed.

Lemma X7_witness :
  Size (mkV (A := nat) [] 2) = 0 /\ run PopBack (mkV (A := nat) [] 2) = UB.
Proof. split; [reflexivity|]. apply (proj2 (X7_pop_back (A := nat)) (mkV [] 2)). reflexivity. Defined.

(** [PushBack(a)] followed by [PopBack()] gives back the elements; with
    spare capacity the block is the same as before. *)
Theorem X8_push_pop {A} (et : @ElemType A) :
  forall xs k a, copy_throws et a = false ->
    Forall (fun x => reloc_throws et x = false) xs ->
    exists m1 m2 k', run (PushBack et (Ext a)) (mkV xs k) = Ok (length xs) m1 /\
      run PopBack (vec_of m1) = Ok tt m2 /\
      vec_of m2 = mkV xs k' /\ (0 < k -> k' = k).
Proof.
  intros xs k a Ha Hth. unfold PushBack, copy_of, copy_arg. rewrite Ha.
  destruct k as [|k].
  - destruct (EmplaceBack_grow_run et xs a Hth) as (m & Hr & Hv & _).
    eexists m, _, (S (grown (length xs) - S (length xs))).
    split; [done|]. rewrite Hv, PopBack_run. split; [reflexivity|].
    split; [reflexivity|lia].
  - destruct (EmplaceBack_room_run et xs k a) as (m & Hr & Hv & _).
    eexists m, _, (S k). split; [done|]. rewrite Hv, PopBack_run. split; [reflexivity|].
    split; reflexivity.
Qed.

Lemma X8_witness :
  copy_throws et_ex 7 = false /\ Forall (fun x => reloc_throws et_ex x = false) [1; 2] /\
  exists m1 m2 k', run (PushBack et_ex (Ext 7)) (mkV [1; 2] 1) = Ok (length [1; 2]) m1 /\
    run PopBack (vec_of m1) = Ok tt m2 /\ vec_of m2 = mkV [1; 2] k' /\ (0 < 1 -> k' = 1).
Proof.
  split; [reflexivity|]. split; [repeat constructor|].
  apply (X8_push_pop et_ex [1; 2] 1 7); [reflexivity | repeat constructor].
Defined.

(** When the new element's constructor throws, [EmplaceBack] leaves the
    vector as it was, whether or not it had to grow; so do [PushBack]
    when copying the value throws and [PushBack(T&&)] when moving it
    throws.  No element operation has run. *)
Theorem X9_emplace_back_throw {A} (et : @ElemType A) :
  forall v : @Vector A,
    (exists m, run (EmplaceBack et (Args None)) v = Exn m /\ vec_of m = v /\ m_trace m = []) /\
    (forall a, copy_throws et a = true ->
       exists m, run (PushBack et (Ext a)) v = Exn m /\ vec_of m = v /\ m_trace m = []) /\
    (forall a, move_throws et a = true ->
       exists m, run (PushBackMove et (Ext a)) v = Exn m /\ vec_of m = v /\ m_trace m = []).
Proof.
  intros v. split; [apply EmplaceBack_exn_any|]. split.
  - intros a Ha. unfold PushBack, copy_of, copy_arg. rewrite Ha. apply EmplaceBack_exn_any.
  - intros a Ha. unfold PushBackMove, move_of, move_arg. rewrite Ha. apply EmplaceBack_exn_any.
Qed.

Lemma X9_witness :
  copy_throws et_ex 99 = true /\
  exists m, run (PushBack et_ex (Ext 99)) (mkV [1; 2] 3) = Exn m /\
    vec_of m = mkV [1; 2] 3 /\ m_trace m = [].
Proof.
  split; [reflexivity|].
  apply (proj1 (proj2 (X9_emplace_back_throw et_ex (mkV [1; 2] 3))) 99). reflexivity.
Defined.

(** [Emplace(end(), args...)] has the same outcome as [EmplaceBack(args...)]
    (returned index, exception, members and element operations), and
    [Insert(end(), value)] the same as [PushBack(value)]. *)
Theorem X10_emplace_at_end {A} (et : @ElemType A) :
  (forall (v : @Vector A) arg,
     observe (run (Emplace et (Size v) arg) v) = observe (run (EmplaceBack et arg) v)) /\
  (forall (v : @Vector A) a,
     observe (run (Insert et (Size v) a) v) = observe (run (PushBack et a) v)) /\
  (forall (v : @Vector A) a,
     observe (run (InsertMove et (Size v) a) v) = observe (run (PushBackMove et a) v)).
Proof.
  split; [|split]; intros v a; apply Emplace_end_same.
Qed.

(** [Erase] of the last element of a non-empty vector is [PopBack()]
    returning the erased position. *)
Theorem X11_erase_last {A} (et : @ElemType A) :
  forall v : @Vector A, 0 < Size v ->
    run (Erase et (Size v - 1)) v
    = match run PopBack v with Ok _ m => Ok (Size v - 1) m | Exn m => Exn m | UB => UB end.
Proof. intros v Hv. by apply Erase_last. Qed.

Lemma X11_witness :
  0 < Size (mkV [4; 5] 1) /\
  run (Erase et_ex (Size (mkV [4; 5] 1) - 1)) (mkV [4; 5] 1)
  = match run PopBack (mkV [4; 5] 1) with
    | Ok _ m => Ok (Size (mkV [4; 5] 1) - 1) m | Exn m => Exn m | UB => UB
    end.
Proof. split; [vm_compute; lia|]. apply (X11_erase_last et_ex (mkV [4; 5] 1)). vm_compute; lia. Defined.

(** Copy assignment from a vector larger than the capacity: the result
    holds copies of the source in a block of exactly [other.Size()] slots;
    all copies are made before the old elements are destroyed. *)
Theorem X12_copy_assign_grow {A} (et : @ElemType A) :
  forall xs k ys k', Capacity (mkV xs k) < length ys ->
    Forall (fun y => copy_throws et y = false) ys ->
    exists m, run (CopyAssign et (SrcOther (mkV ys k'))) (mkV xs k) = Ok tt m /\
      vec_of m = mkV ys 0 /\ Capacity (vec_of m) = Size (mkV ys k') /\
      m_trace m = replicate (length ys) EvCopy ++ replicate (length xs) EvDestroy.
Proof.
  intros xs k ys k' Hlt Hth. rewrite Capacity_mkV in Hlt.
  rewrite (CopyAssign_grow_run et xs k ys k' Hlt Hth).
  eexists; split; [reflexivity|]. cbn [m_trace]. split; [|split].
  - unfold vec_of, mkV. cbn. by rewrite app_nil_r.
  - unfold Capacity, Size, vec_of. cbn. by rewrite length_map.
  - reflexivity.
Qed.

Lemma X12_witness :
  Capacity (mkV [1] 1) < length [4; 5; 6] /\
  Forall (fun y => copy_throws et_ex y = false) [4; 5; 6] /\
  exists m, run (CopyAssign et_ex (SrcOther (mkV [4; 5; 6] 2))) (mkV [1] 1) = Ok tt m /\
    vec_of m = mkV [4; 5; 6] 0 /\ Capacity (vec_of m) = Size (mkV [4; 5; 6] 2) /\
    m_trace m = replicate (length [4; 5; 6]) EvCopy ++ replicate (length [1]) EvDestroy.
Proof.
  split; [vm_compute; lia|]. split; [repeat constructor|].
  apply (X12_copy_assign_grow et_ex [1] 1 [4; 5; 6] 2); [vm_compute; lia | repeat constructor].
Defined.

(** Copy assignment that reallocates gives the strong guarantee: if a
    copy throws, the target keeps its block, size and elements. *)
Theorem X13_copy_assign_grow_strong {A} (et : @ElemType A) :
  forall v w : @Vector A, Capacity v < Size w ->
    match run (CopyAssign et (SrcOther w)) v with Exn m => vec_of m = v | _ => True end.
Proof. intros v w H. by apply CopyAssign_grow_exn. Qed.

Lemma X13_witness :
  Capacity (mkV [1] 0) < Size (mkV [4; 99] 0) /\
  match run (CopyAssign et_ex (SrcOther (mkV [4; 99] 0))) (mkV [1] 0) with
  | Exn m => vec_of m = mkV [1] 0 | _ => True
  end.
Proof.
  split; [vm_compute; lia|]. apply (X13_copy_assign_grow_strong et_ex (mkV [1] 0) (mkV [4; 99] 0)).
  vm_compute; lia.
Defined.

(** After [Reserve(n)], pushing values while [Size() <= n] never
    reallocates: the capacity stays [max(n, old capacity)]. *)
Theorem X14_reserve_then_push {A} (et : @ElemType A) :
  forall xs k ys n, length xs + length ys <= n ->
    Forall (fun x => reloc_throws et x = false) xs ->
    Forall (fun y => copy_throws et y = false) ys ->
    exists m, run (Reserve et n) (mkV xs k) = Ok tt m /\
      pushes et ys (vec_of m)
      = Some (mkV (xs ++ ys) (Nat.max n (Capacity (mkV xs k)) - length xs - length ys)).
Proof.
  intros xs k ys n Hn Hx Hy. rewrite Capacity_mkV.
  destruct (Nat.ltb_spec (length xs + k) n) as [Hc|Hc].
  - destruct (Reserve_grow_run et xs k n Hc Hx) as (m & Hr & Hv & _).
    exists m. split; [done|]. rewrite Hv, pushes_room by (done || lia).
    do 2 f_equal. lia.
  - exists (start (mkV xs k)). split.
    + apply Reserve_noop. rewrite Capacity_mkV. lia.
    + rewrite vec_of_start, pushes_room by (done || lia).
      do 2 f_equal. lia.
Qed.

Lemma X14_witness :
  length [1] + length [2; 3; 4] <= 5 /\
  Forall (fun x => reloc_throws et_ex x = false) [1] /\
  Forall (fun y => copy_throws et_ex y = false) [2; 3; 4] /\
  exists m, run (Reserve et_ex 5) (mkV [1] 0) = Ok tt m /\
    pushes et_ex [2; 3; 4] (vec_of m)
    = Some (mkV ([1] ++ [2; 3; 4]) (Nat.max 5 (Capacity (mkV [1] 0)) - length [1] - length [2; 3; 4])).
Proof.
  split; [vm_compute; lia|]. split; [repeat constructor|]. split; [repeat constructor|].
  apply (X14_reserve_then_push et_ex [1] 0 [2; 3; 4] 5); [vm_compute; lia | repeat constructor | repeat constructor].
Defined.

(** [Resize(n)] with [n > Size()]: when no [T()] throws, [n - Size()]
    default-initialised objects (whose values this does not fix: for a
    scalar type they are indeterminate) are constructed at the end, and the
    capacity becomes exactly [max(n, old capacity)] (no doubling); the old
    elements are relocated only when [n] exceeds the capacity. When the
    [j]-th default construction throws, the objects it built are destroyed
    and the old elements and [Size()] are kept, in the block of capacity
    [max(n, old capacity)]. *)
Theorem X15_resize_up {A} (et : @ElemType A) :
  (forall xs k n, (forall t, default_throws et t = false) -> length xs < n ->
    Forall (fun x => reloc_throws et x = false) xs ->
    exists m zs, run (Resize et n) (mkV xs k) = Ok tt m /\
      length zs = n - length xs /\
      vec_of m = mkV (xs ++ zs) (Nat.max n (Capacity (mkV xs k)) - n) /\
      Size (vec_of m) = n /\
      Capacity (vec_of m) = Nat.max n (Capacity (mkV xs k)) /\
      m_trace m = (if Capacity (mkV xs k) <? n
                   then replicate (length xs) (reloc_event et) ++ replicate (length xs) EvDestroy
                   else []) ++ replicate (n - length xs) EvConstruct) /\
  (forall xs k n j, (forall t, t < j -> default_throws et t = false) ->
    default_throws et j = true -> length xs + j < n ->
    Forall (fun x => reloc_throws et x = false) xs ->
    exists m, run (Resize et n) (mkV xs k) = Exn m /\
      vec_of m = mkV xs (Nat.max n (Capacity (mkV xs k)) - length xs) /\
      Size (vec_of m) = length xs /\
      Capacity (vec_of m) = Nat.max n (Capacity (mkV xs k)) /\
      m_trace m = (if Capacity (mkV xs k) <? n
                   then replicate (length xs) (reloc_event et) ++ replicate (length xs) EvDestroy
                   else []) ++ replicate j EvConstruct ++ replicate j EvDestroy).
Proof.
  split.
  - intros xs k n Hd Hn Hth. rewrite Capacity_mkV.
    destruct (Resize_up_run et xs k n Hd Hn Hth) as (m & Hr & Hv & Ht).
    exists m, (replicate (n - length xs) (default_init et)).
    rewrite Hv, Capacity_mkV, Size_mkV, length_app, !length_replicate.
    repeat split; try done; lia.
  - intros xs k n j Hok Hj Hn Hth. rewrite Capacity_mkV.
    destruct (Resize_up_throw et xs k n j Hok Hj Hn Hth) as (m & Hr & Hv & Ht).
    exists m. rewrite Hv, Capacity_mkV, Size_mkV.
    repeat split; try done; lia.
Qed.

Lemma X15_witness :
  (exists m zs, run (Resize et_ex 5) (mkV [1; 2] 1) = Ok tt m /\
    length zs = 5 - length [1; 2] /\
    vec_of m = mkV ([1; 2] ++ zs) (Nat.max 5 (Capacity (mkV [1; 2] 1)) - 5) /\
    Size (vec_of m) = 5 /\
    Capacity (vec_of m) = Nat.max 5 (Capacity (mkV [1; 2] 1)) /\
    m_trace m = (if Capacity (mkV [1; 2] 1) <? 5
                 then replicate (length [1; 2]) (reloc_event et_ex)
                      ++ replicate (length [1; 2]) EvDestroy
                 else []) ++ replicate (5 - length [1; 2]) EvConstruct) /\
  (exists m, run (Resize et_ctor_throws 5) (mkV [1; 2] 1) = Exn m /\
    vec_of m = mkV [1; 2] (Nat.max 5 (Capacity (mkV [1; 2] 1)) - length [1; 2]) /\
    Size (vec_of m) = length [1; 2] /\
    Capacity (vec_of m) = Nat.max 5 (Capacity (mkV [1; 2] 1)) /\
    m_trace m = (if Capacity (mkV [1; 2] 1) <? 5
                 then replicate (length [1; 2]) (reloc_event et_ctor_throws)
                      ++ replicate (length [1; 2]) EvDestroy
                 else []) ++ replicate 1 EvConstruct ++ replicate 1 EvDestroy).
Proof.
  split.
  - apply (proj1 (X15_resize_up et_ex) [1; 2] 1 5);
      [intros t; reflexivity | vm_compute; lia | repeat constructor].
  - apply (proj2 (X15_resize_up et_ctor_throws) [1; 2] 1 5 1).
    + intros t Ht. destruct t; [reflexivity | lia].
    + reflexivity.
    + vm_compute; lia.
    + repeat constructor.
Defined.

(** [Insert] of a value that is not an element of the vector, before the
    last element of a vector with spare capacity: no reallocation; the
    last element is move-constructed into the free slot, the others are
    shifted by move assignment, and the value is copied into a temporary
    that is move-assigned into place and destroyed. *)
Theorem X16_insert_mid_room {A} (et : @ElemType A) :
  forall pre seg z k a,
    Forall (fun x => move_throws et x = false) (seg ++ [z]) ->
    copy_throws et a = false -> move_throws et a = false ->
    exists m, run (Insert et (length pre) (Ext a)) (mkV (pre ++ seg ++ [z]) (S k)) = Ok (length pre) m /\
      vec_of m = mkV (pre ++ a :: seg ++ [z]) k /\
      Capacity (vec_of m) = Capacity (mkV (pre ++ seg ++ [z]) (S k)) /\
      m_trace m = EvMove :: (replicate (length seg) EvMoveAssign
                             ++ [EvConstruct; EvMoveAssign; EvDestroy]).
Proof.
  intros pre seg z k a Hth Hc Hm. unfold Insert, copy_of, copy_arg. rewrite Hc.
  destruct (Emplace_mid_run et pre seg z k a Hth Hm) as (m & Hr & Hv & Ht).
  exists m. rewrite Hv, !Capacity_mkV, !length_app. simpl. rewrite length_app. simpl.
  repeat split; try done. lia.
Qed.

Lemma X16_witness :
  Forall (fun x => move_throws et_ex x = false) ([2] ++ [3]) /\
  copy_throws et_ex 7 = false /\ move_throws et_ex 7 = false /\
  exists m, run (Insert et_ex (length [1]) (Ext 7)) (mkV ([1] ++ [2] ++ [3]) 1) = Ok (length [1]) m /\
    vec_of m = mkV ([1] ++ 7 :: [2] ++ [3]) 0 /\
    Capacity (vec_of m) = Capacity (mkV ([1] ++ [2] ++ [3]) 1) /\
    m_trace m = EvMove :: (replicate (length [2]) EvMoveAssign
                           ++ [EvConstruct; EvMoveAssign; EvDestroy]).
Proof.
  split; [repeat constructor|]. split; [reflexivity|]. split; [reflexivity|].
  apply (X16_insert_mid_room et_ex [1] [2] 3 0 7); [repeat constructor | reflexivity | reflexivity].
Defined.

(** [Resize(n)] with [n <= Size()]: the last [Size() - n] elements are
    destroyed in place, the first [n] are kept and the block (so the
    capacity) stays the same. *)
Theorem X17_resize_down {A} (et : @ElemType A) :
  forall xs k n, n <= length xs ->
    exists m, run (Resize et n) (mkV xs k) = Ok tt m /\
      vec_of m = mkV (take n xs) (length xs - n + k) /\
      Size (vec_of m) = n /\
      Capacity (vec_of m) = Capacity (mkV xs k) /\
      m_trace m = replicate (length xs - n) EvDestroy.
Proof.
  intros xs k n Hn. destruct (Resize_down_run et xs k n Hn) as (m & Hr & Hv & Ht).
  exists m. rewrite Hv, !Capacity_mkV, Size_mkV, length_take.
  repeat split; try done; lia.
Qed.

Lemma X17_witness :
  1 <= length [4; 5; 6] /\
  exists m, run (Resize et_ex 1) (mkV [4; 5; 6] 2) = Ok tt m /\
    vec_of m = mkV (take 1 [4; 5; 6]) (length [4; 5; 6] - 1 + 2) /\
    Size (vec_of m) = 1 /\
    Capacity (vec_of m) = Capacity (mkV [4; 5; 6] 2) /\
    m_trace m = replicate (length [4; 5; 6] - 1) EvDestroy.
Proof.
  split; [vm_compute; lia|]. apply (X17_resize_down et_ex [4; 5; 6] 2 1). vm_compute; lia.
Defined.

(** [Insert(begin() + p, v[j])] on a vector with spare capacity, with
    [p < j < Size()]: the elements are shifted before the copy is made, so
    the value inserted at [p] is the old [v[j - 1]], not [v[j]]. *)
Theorem X19_insert_own_element {A} (et : @ElemType A) :
  forall pre seg z k j b,
    Forall (fun x => move_throws et x = false) (seg ++ [z]) ->
    length pre < j -> (pre ++ seg ++ [z]) !! (j - 1) = Some b ->
    copy_throws et b = false -> move_throws et b = false ->
    exists m, run (Insert et (length pre) (Elem j)) (mkV (pre ++ seg ++ [z]) (S k))
              = Ok (length pre) m /\
      vec_of m = mkV (pre ++ b :: seg ++ [z]) k.
Proof. intros pre seg z k j b. apply Insert_mid_elem. Qed.

Lemma X19_witness :
  Forall (fun x => move_throws et_ex x = false) ([5] ++ [6]) /\
  length [4] < 2 /\ ([4] ++ [5] ++ [6]) !! (2 - 1) = Some 5 /\
  copy_throws et_ex 5 = false /\ move_throws et_ex 5 = false /\
  exists m, run (Insert et_ex (length [4]) (Elem 2)) (mkV ([4] ++ [5] ++ [6]) 1)
            = Ok (length [4]) m /\
    vec_of m = mkV ([4] ++ 5 :: [5] ++ [6]) 0.
Proof.
  split; [repeat constructor|]. split; [vm_compute; lia|]. split; [reflexivity|].
  split; [reflexivity|]. split; [reflexivity|].
  apply (X19_insert_own_element et_ex [4] [5] 6 0 2 5);
    [repeat constructor | vm_compute; lia | reflexivity | reflexivity | reflexivity].
Defined.

(** [Insert] of a value that is not an element of the vector (no element
    operation throwing) at a position [p <= size] gives size [n + 1], the
    value at [p] and the other elements in their order; [Erase(p)] then
    restores the elements.  Conversely [Erase(p)] followed by [Insert] at
    [p] of (a copy of) the erased element restores them. *)
Theorem X20_insert_erase_external {A} (et : @ElemType A) :
  (forall xs k p a, p <= length xs -> quiet et a -> Forall (quiet et) xs ->
     exists k' m1, run (Insert et p (Ext a)) (mkV xs k) = Ok p m1 /\
       vec_of m1 = mkV (take p xs ++ a :: drop p xs) k' /\
       Size (vec_of m1) = S (length xs) /\
       exists m2, run (Erase et p) (vec_of m1) = Ok p m2 /\ vec_of m2 = mkV xs (S k')) /\
  (forall xs k p x, xs !! p = Some x -> Forall (quiet et) xs ->
     exists m1, run (Erase et p) (mkV xs k) = Ok p m1 /\
       vec_of m1 = mkV (take p xs ++ drop (S p) xs) (S k) /\
       exists k' m2, run (Insert et p (Ext x)) (vec_of m1) = Ok p m2 /\ vec_of m2 = mkV xs k').
Proof.
  split.
  - intros xs k p a Hp Ha Hq.
    destruct (Insert_run et xs k p a Hp Ha Hq) as (k' & m1 & Hr & Hv).
    exists k', m1. split; [done|]. split; [exact Hv|]. split.
    + rewrite Hv, Size_mkV. unfold ins_at. rewrite length_app. simpl.
      rewrite length_take, length_drop. lia.
    + rewrite Hv. by apply Erase_ins_at.
  - intros xs k p x Hx Hq.
    destruct (Erase_del_at et xs k p x Hx Hq) as (m1 & Hr & Hv).
    exists m1. split; [done|]. split; [exact Hv|].
    assert (Hp : p < length xs) by (by apply lookup_lt_Some in Hx).
    assert (Hxq : quiet et x) by (eapply Forall_lookup_1; eauto).
    destruct (Insert_run et (del_at p xs) (S k) p x) as (k' & m2 & Hr2 & Hv2).
    + rewrite length_del_at by done. lia.
    + done.
    + unfold del_at. apply Forall_app. split; [by apply Forall_take | by apply Forall_drop].
    + exists k', m2. rewrite Hv. split; [done|]. by rewrite Hv2, ins_at_del_at.
Qed.

Lemma X20_witness :
  2 <= length [1; 2; 3] /\ quiet et_ex 5 /\ Forall (quiet et_ex) [1; 2; 3] /\
  exists k' m1, run (Insert et_ex 2 (Ext 5)) (mkV [1; 2; 3] 1) = Ok 2 m1 /\
    vec_of m1 = mkV (take 2 [1; 2; 3] ++ 5 :: drop 2 [1; 2; 3]) k' /\
    Size (vec_of m1) = S (length [1; 2; 3]) /\
    exists m2, run (Erase et_ex 2) (vec_of m1) = Ok 2 m2 /\ vec_of m2 = mkV [1; 2; 3] (S k').
Proof.
  assert (Hq : Forall (quiet et_ex) [1; 2; 3]) by (repeat constructor; done).
  assert (H5 : quiet et_ex 5) by done.
  split; [simpl; lia|]. split; [exact H5|]. split; [exact Hq|].
  apply (proj1 (X20_insert_erase_external et_ex) [1; 2; 3] 1 2 5); [simpl; lia | exact H5 | exact Hq].
Defined.
